(** * The permission engine of the document manager

    A shallow embedding of [src/utils/permissionManagement.ts]: the three
    module-level arrays [users], [groups] and [permissions] become one
    [State] record that every operation takes and returns; a result of type
    [T | PermissionError] becomes the sum [result T]; [uuidv4()] and
    [new Date()] are inputs of the operation that calls them. *)

From Stdlib Require Import String Ascii List ZArith Bool Lia Arith.
Import ListNotations.

Open Scope string_scope.
Open Scope list_scope.

(** ** Strings

    A JavaScript string is modelled as a [string] whose characters are the
    code units U+0000 .. U+00FF.  [toLowerCase] and [trim] are the
    restrictions of the built-ins to that range. *)

Definition isWhiteSpace (c : ascii) : bool :=
  let n := nat_of_ascii c in
  (((9 <=? n) && (n <=? 13)) || (n =? 32) || (n =? 160))%nat.

Definition lowerChar (c : ascii) : ascii :=
  let n := nat_of_ascii c in
  if (((65 <=? n) && (n <=? 90))
      || ((192 <=? n) && (n <=? 222) && negb (n =? 215)))%nat
  then ascii_of_nat (n + 32)
  else c.

Fixpoint toLowerCase (s : string) : string :=
  match s with
  | EmptyString => EmptyString
  | String c t => String (lowerChar c) (toLowerCase t)
  end.

Fixpoint trimStart (s : string) : string :=
  match s with
  | EmptyString => EmptyString
  | String c t => if isWhiteSpace c then trimStart t else s
  end.

Fixpoint trimEnd (s : string) : string :=
  match s with
  | EmptyString => EmptyString
  | String c t =>
      match trimEnd t with
      | EmptyString => if isWhiteSpace c then EmptyString else String c EmptyString
      | t' => String c t'
      end
  end.

Definition trim (s : string) : string := trimEnd (trimStart s).

(** [!s] on a string: only the empty string is falsy. *)
Definition falsy (s : string) : bool :=
  match s with EmptyString => true | _ => false end.

(** A string made of white space only (the strings [trim] empties). *)
Fixpoint blank (s : string) : bool :=
  match s with
  | EmptyString => true
  | String c t => isWhiteSpace c && blank t
  end.

(** ** Arrays *)

(** [Array.prototype.indexOf] / [findIndex]: the first position, or -1. *)
Fixpoint findIndex {A} (f : A -> bool) (l : list A) : Z :=
  match l with
  | [] => (-1)%Z
  | x :: t =>
      if f x then 0%Z
      else let i := findIndex f t in
           if (i <? 0)%Z then (-1)%Z else (i + 1)%Z
  end.

Definition indexOf (l : list string) (x : string) : Z :=
  findIndex (fun y => y =? x) l.

Definition includes (l : list string) (x : string) : bool :=
  existsb (fun y => y =? x) l.

(** [l.splice(i, 1)] for an index [0 <= i]. *)
Definition splice1 {A} (i : Z) (l : list A) : list A :=
  firstn (Z.to_nat i) l ++ skipn (S (Z.to_nat i)) l.

(** [l[i] = g(l[i])] for an index inside the array: the slot is mutated,
    length and order stay. *)
Fixpoint mutate_at {A} (i : nat) (g : A -> A) (l : list A) : list A :=
  match l, i with
  | [], _ => []
  | x :: t, O => g x :: t
  | x :: t, S j => x :: mutate_at j g t
  end.

(** The object [l.find(f)] returns is mutated in place by [g]. *)
Fixpoint mutate_found {A} (f : A -> bool) (g : A -> A) (l : list A) : list A :=
  match l with
  | [] => []
  | x :: t => if f x then g x :: t else x :: mutate_found f g t
  end.

(** ** Data model *)

Inductive PermissionLevel := view | edit | download | admin.

Inductive Role := role_user | role_admin.

Inductive GranteeType := grantee_user | grantee_group.

(** A [Date] is its time value, in milliseconds. *)
Definition Date := Z.
Bind Scope Z_scope with Date.

Record User := mkUser {
  u_id : string;
  u_name : string;
  u_email : string;
  u_role : Role
}.

Record Group := mkGroup {
  g_id : string;
  g_name : string;
  g_description : option string;
  g_members : list string
}.

Record Permission := mkPermission {
  p_id : string;
  documentId : string;
  granteeId : string;
  granteeType : GranteeType;
  level : PermissionLevel;
  grantedBy : string;
  grantedAt : Date;
  updatedAt : Date
}.

Inductive ErrorType :=
  VALIDATION_ERROR | NOT_FOUND | INVALID_OPERATION | UNAUTHORIZED.

Record PermissionError := mkError {
  e_type : ErrorType;
  e_message : string
}.

Inductive result (T : Type) :=
| Ok (v : T)
| Err (e : PermissionError).
Arguments Ok {T} v.
Arguments Err {T} e.

(** The in-memory storage. *)
Record State := mkState {
  users : list User;
  groups : list Group;
  permissions : list Permission
}.

Definition empty_state : State := mkState [] [] [].

Definition level_eqb (a b : PermissionLevel) : bool :=
  match a, b with
  | view, view | edit, edit | download, download | admin, admin => true
  | _, _ => false
  end.

Definition role_eqb (a b : Role) : bool :=
  match a, b with
  | role_user, role_user | role_admin, role_admin => true
  | _, _ => false
  end.

Definition granteeType_eqb (a b : GranteeType) : bool :=
  match a, b with
  | grantee_user, grantee_user | grantee_group, grantee_group => true
  | _, _ => false
  end.

(** ** Helpers of the module *)

Definition levels : list PermissionLevel := [view; edit; download; admin].

Definition indexOfLevel (l : list PermissionLevel) (x : PermissionLevel) : Z :=
  findIndex (fun y => level_eqb y x) l.

Definition hasPermissionLevel (userLevel requiredLevel : PermissionLevel) : bool :=
  (indexOfLevel levels userLevel >=? indexOfLevel levels requiredLevel)%Z.

Definition getDocumentPermissions (s : State) (docId : string) : list Permission :=
  filter (fun p => documentId p =? docId) (permissions s).

Definition getUserPermissions (s : State) (userId : string) : list Permission :=
  let userGroups := filter (fun g => includes (g_members g) userId) (groups s) in
  let groupIds := map g_id userGroups in
  filter (fun p =>
            (granteeType_eqb (granteeType p) grantee_user && (granteeId p =? userId))
            || (granteeType_eqb (granteeType p) grantee_group
                && includes groupIds (granteeId p)))
         (permissions s).

(** ** Principal store *)

Definition createUser (uuid : string) (name email : string) (role : Role)
    (s : State) : result User * State :=
  if falsy (trim name) || falsy (trim email) then
    (Err (mkError VALIDATION_ERROR "Name and email are required"), s)
  else
    match find (fun u => toLowerCase (u_email u) =? toLowerCase email) (users s) with
    | Some _ =>
        (Err (mkError INVALID_OPERATION "User with this email already exists"), s)
    | None =>
        let newUser := mkUser uuid (trim name) (trim (toLowerCase email)) role in
        (Ok newUser, mkState (users s ++ [newUser]) (groups s) (permissions s))
    end.

Definition createGroup (uuid : string) (name : string) (description : option string)
    (s : State) : result Group * State :=
  if falsy (trim name) then
    (Err (mkError VALIDATION_ERROR "Group name is required"), s)
  else
    match find (fun g => toLowerCase (g_name g) =? toLowerCase name) (groups s) with
    | Some _ =>
        (Err (mkError INVALID_OPERATION "Group with this name already exists"), s)
    | None =>
        let newGroup := mkGroup uuid (trim name) (option_map trim description) [] in
        (Ok newGroup, mkState (users s) (groups s ++ [newGroup]) (permissions s))
    end.

Definition with_members (f : list string -> list string) (g : Group) : Group :=
  mkGroup (g_id g) (g_name g) (g_description g) (f (g_members g)).

(** Reading [groups[groupIndex].members] throws when the slot is undefined;
    the [catch] block turns that into the operation's "Failed to ..." error. *)
Definition addUserToGroup (userId groupId : string) (s : State)
    : result bool * State :=
  match find (fun u => u_id u =? userId) (users s) with
  | None => (Err (mkError NOT_FOUND "User not found"), s)
  | Some _ =>
      let groupIndex := findIndex (fun g => g_id g =? groupId) (groups s) in
      if (groupIndex =? -1)%Z then
        (Err (mkError NOT_FOUND "Group not found"), s)
      else
        match nth_error (groups s) (Z.to_nat groupIndex) with
        | None => (Err (mkError INVALID_OPERATION "Failed to add user to group"), s)
        | Some g =>
            if includes (g_members g) userId then
              (Err (mkError INVALID_OPERATION "User is already a member of this group"), s)
            else
              (Ok true,
               mkState (users s)
                 (mutate_at (Z.to_nat groupIndex)
                    (with_members (fun m => m ++ [userId])) (groups s))
                 (permissions s))
        end
  end.

Definition removeUserFromGroup (userId groupId : string) (s : State)
    : result bool * State :=
  let groupIndex := findIndex (fun g => g_id g =? groupId) (groups s) in
  if (groupIndex =? -1)%Z then
    (Err (mkError NOT_FOUND "Group not found"), s)
  else
    match nth_error (groups s) (Z.to_nat groupIndex) with
    | None => (Err (mkError INVALID_OPERATION "Failed to remove user from group"), s)
    | Some g =>
        let memberIndex := indexOf (g_members g) userId in
        if (memberIndex =? -1)%Z then
          (Err (mkError NOT_FOUND "User is not a member of this group"), s)
        else
          (Ok true,
           mkState (users s)
             (mutate_at (Z.to_nat groupIndex)
                (with_members (splice1 memberIndex)) (groups s))
             (permissions s))
    end.

(** ** Grant store *)

(** The predicate both [grantPermission] and [revokePermission] search with. *)
Definition same_grant (docId gId : string) (gType : GranteeType) (p : Permission)
    : bool :=
  (documentId p =? docId) && (granteeId p =? gId)
  && granteeType_eqb (granteeType p) gType.

Definition regrant (lvl : PermissionLevel) (now : Date) (p : Permission) : Permission :=
  mkPermission (p_id p) (documentId p) (granteeId p) (granteeType p)
    lvl (grantedBy p) (grantedAt p) now.

Definition found {A} (o : option A) : bool :=
  match o with Some _ => true | None => false end.

(** [now] is the clock read by the first [new Date()] of the call, [now'] by
    the second one (only the creating branch reads the clock twice). *)
Definition grantPermission (uuid : string) (now now' : Date)
    (docId gId : string) (gType : GranteeType) (lvl : PermissionLevel)
    (by_ : string) (s : State) : result Permission * State :=
  if granteeType_eqb gType grantee_user
     && negb (found (find (fun u => u_id u =? gId) (users s))) then
    (Err (mkError NOT_FOUND "User not found"), s)
  else if granteeType_eqb gType grantee_group
          && negb (found (find (fun g => g_id g =? gId) (groups s))) then
    (Err (mkError NOT_FOUND "Group not found"), s)
  else
    match find (same_grant docId gId gType) (permissions s) with
    | Some existingPermission =>
        (Ok (regrant lvl now existingPermission),
         mkState (users s) (groups s)
           (mutate_found (same_grant docId gId gType) (regrant lvl now)
              (permissions s)))
    | None =>
        let newPermission := mkPermission uuid docId gId gType lvl by_ now now' in
        (Ok newPermission,
         mkState (users s) (groups s) (permissions s ++ [newPermission]))
    end.

Definition revokePermission (docId gId : string) (gType : GranteeType) (s : State)
    : result bool * State :=
  let permissionIndex := findIndex (same_grant docId gId gType) (permissions s) in
  if (permissionIndex =? -1)%Z then
    (Err (mkError NOT_FOUND "Permission not found"), s)
  else
    (Ok true,
     mkState (users s) (groups s) (splice1 permissionIndex (permissions s))).

(** ** Resolution engine *)

(** [user?.role === 'admin'] *)
Definition is_admin (s : State) (userId : string) : bool :=
  match find (fun u => u_id u =? userId) (users s) with
  | Some user => role_eqb (u_role user) role_admin
  | None => false
  end.

Definition documentPermissionsOf (s : State) (docId userId : string)
    : list Permission :=
  filter (fun p => documentId p =? docId) (getUserPermissions s userId).

Definition highestLevel (documentPermissions : list Permission) : PermissionLevel :=
  fold_left
    (fun highest current =>
       if hasPermissionLevel (level current) highest then level current else highest)
    documentPermissions view.

Definition checkPermission (s : State) (docId userId : string)
    (requiredLevel : PermissionLevel) : bool :=
  if is_admin s userId then true
  else
    let documentPermissions := documentPermissionsOf s docId userId in
    if (length documentPermissions =? 0)%nat then false
    else hasPermissionLevel (highestLevel documentPermissions) requiredLevel.

(** The entries of the access list; [find(...)!] is [undefined] (here [None])
    when no principal has the id. *)
Record AccessList := mkAccessList {
  al_users : list (option User * Permission);
  al_groups : list (option Group * Permission)
}.

Definition getDocumentAccessList (s : State) (docId : string) : AccessList :=
  let documentPermissions := getDocumentPermissions s docId in
  mkAccessList
    (map (fun p => (find (fun u => u_id u =? granteeId p) (users s), p))
       (filter (fun p => granteeType_eqb (granteeType p) grantee_user)
          documentPermissions))
    (map (fun p => (find (fun g => g_id g =? granteeId p) (groups s), p))
       (filter (fun p => granteeType_eqb (granteeType p) grantee_group)
          documentPermissions)).

Definition initializePermissions (uuid : string) (s : State) : State :=
  if (length (users s) =? 0)%nat then
    snd (createUser uuid "Admin" "admin@example.com" role_admin s)
  else s.

(** ** Runs of the module *)

(** One call of an exported operation that can change the storage, with the
    identifier and clock readings it draws. *)
Inductive Call :=
| CreateUser (uuid name email : string) (role : Role)
| CreateGroup (uuid name : string) (description : option string)
| AddUserToGroup (userId groupId : string)
| RemoveUserFromGroup (userId groupId : string)
| GrantPermission (uuid : string) (now now' : Date) (docId gId : string)
    (gType : GranteeType) (lvl : PermissionLevel) (by_ : string)
| RevokePermission (docId gId : string) (gType : GranteeType)
| InitializePermissions (uuid : string).

Definition exec (c : Call) (s : State) : State :=
  match c with
  | CreateUser uuid name email role => snd (createUser uuid name email role s)
  | CreateGroup uuid name description => snd (createGroup uuid name description s)
  | AddUserToGroup userId groupId => snd (addUserToGroup userId groupId s)
  | RemoveUserFromGroup userId groupId => snd (removeUserFromGroup userId groupId s)
  | GrantPermission uuid now now' docId gId gType lvl by_ =>
      snd (grantPermission uuid now now' docId gId gType lvl by_ s)
  | RevokePermission docId gId gType => snd (revokePermission docId gId gType s)
  | InitializePermissions uuid => initializePermissions uuid s
  end.

Definition run (cs : list Call) (s : State) : State :=
  fold_left (fun st c => exec c st) cs s.

(** The states the module can be in: the empty storage it is loaded with,
    and whatever a call makes of a reachable state.  [checkPermission],
    [getDocumentAccessList], [getAllUsers] and [getAllGroups] read only. *)
Inductive reachable : State -> Prop :=
| reach_init : reachable empty_state
| reach_call : forall s c, reachable s -> reachable (exec c s).

(** The principals and grants a run creates, in call order. *)
Definition created_user (c : Call) (s : State) : list User :=
  match c with
  | CreateUser uuid name email role =>
      match fst (createUser uuid name email role s) with
      | Ok u => [u]
      | Err _ => []
      end
  | InitializePermissions uuid =>
      if (length (users s) =? 0)%nat then
        match fst (createUser uuid "Admin" "admin@example.com" role_admin s) with
        | Ok u => [u]
        | Err _ => []
        end
      else []
  | _ => []
  end.

Definition created_group (c : Call) (s : State) : list Group :=
  match c with
  | CreateGroup uuid name description =>
      match fst (createGroup uuid name description s) with
      | Ok g => [g]
      | Err _ => []
      end
  | _ => []
  end.

Fixpoint users_created (cs : list Call) (s : State) : list User :=
  match cs with
  | [] => []
  | c :: t => created_user c s ++ users_created t (exec c s)
  end.

Fixpoint groups_created (cs : list Call) (s : State) : list Group :=
  match cs with
  | [] => []
  | c :: t => created_group c s ++ groups_created t (exec c s)
  end.

(** ** Array objects

    [getAllUsers] and [getAllGroups] return arrays, which in JavaScript are
    references.  [Memory] holds the array objects of a program: the three the
    module binds to [users], [groups] and [permissions] when it is loaded
    (these bindings are never reassigned), and the arrays of principals that
    exist elsewhere. *)
Record Memory := mkMemory {
  storage : State;
  user_arrays : list (list User);
  group_arrays : list (list Group)
}.

Inductive UserArrayRef :=
| users_binding
| user_array (n : nat).

Inductive GroupArrayRef :=
| groups_binding
| group_array (n : nat).

Definition read_users (m : Memory) (r : UserArrayRef) : list User :=
  match r with
  | users_binding => users (storage m)
  | user_array n => nth n (user_arrays m) []
  end.

Definition read_groups (m : Memory) (r : GroupArrayRef) : list Group :=
  match r with
  | groups_binding => groups (storage m)
  | group_array n => nth n (group_arrays m) []
  end.

(** [r.push(u)] by a caller that holds the reference [r]. *)
Definition push_user (r : UserArrayRef) (u : User) (m : Memory) : Memory :=
  match r with
  | users_binding =>
      mkMemory
        (mkState (users (storage m) ++ [u]) (groups (storage m))
           (permissions (storage m)))
        (user_arrays m) (group_arrays m)
  | user_array n =>
      mkMemory (storage m) (mutate_at n (fun a => a ++ [u]) (user_arrays m))
        (group_arrays m)
  end.

Definition push_group (r : GroupArrayRef) (g : Group) (m : Memory) : Memory :=
  match r with
  | groups_binding =>
      mkMemory
        (mkState (users (storage m)) (groups (storage m) ++ [g])
           (permissions (storage m)))
        (user_arrays m) (group_arrays m)
  | group_array n =>
      mkMemory (storage m) (user_arrays m)
        (mutate_at n (fun a => a ++ [g]) (group_arrays m))
  end.

(** [() => users] and [() => groups]: the module's own arrays. *)
Definition getAllUsers : UserArrayRef := users_binding.
Definition getAllGroups : GroupArrayRef := groups_binding.

(** A call of the module works on the module's arrays only. *)
Definition call (c : Call) (m : Memory) : Memory :=
  mkMemory (exec c (storage m)) (user_arrays m) (group_arrays m).

Definition calls (cs : list Call) (m : Memory) : Memory :=
  fold_left (fun m' c => call c m') cs m.

(** ** The vocabulary of the specification *)

(** The position of a level in the sequence view, edit, download, admin. *)
Definition level_pos (l : PermissionLevel) : nat :=
  match l with
  | view => 0
  | edit => 1
  | download => 2
  | admin => 3
  end.

(** [userId] is a member of a stored group whose id is [gid]. *)
Definition member_of (s : State) (userId gid : string) : Prop :=
  exists g, In g (groups s) /\ g_id g = gid /\ In userId (g_members g).

(** The effective permission set of a user for a document: the direct grants
    and the grants to a group the user is a member of. *)
Definition in_effective (s : State) (docId userId : string) (p : Permission) : Prop :=
  In p (permissions s) /\ documentId p = docId /\
  ((granteeType p = grantee_user /\ granteeId p = userId) \/
   (granteeType p = grantee_group /\ member_of s userId (granteeId p))).

(** The maximum by a fold that starts from [view] and keeps the
    highest-ranked level seen. *)
Definition max_level (ps : list Permission) : PermissionLevel :=
  fold_left
    (fun m p => if (level_pos m <? level_pos (level p))%nat then level p else m)
    ps view.

(** The tuple that identifies a grant. *)
Definition grant_key (p : Permission) : string * string * GranteeType :=
  (documentId p, granteeId p, granteeType p).

(** The grantee id names a stored principal of the grantee type. *)
Definition grantee_known (s : State) (gId : string) (gType : GranteeType) : Prop :=
  match gType with
  | grantee_user => In gId (map u_id (users s))
  | grantee_group => In gId (map g_id (groups s))
  end.

(** Only [grantPermission] and [revokePermission] touch the grants. *)
Definition grant_call (c : Call) : bool :=
  match c with
  | GrantPermission _ _ _ _ _ _ _ _ | RevokePermission _ _ _ => true
  | _ => false
  end.

Definition unique_grants (s : State) : Prop :=
  NoDup (map grant_key (permissions s)).

Definition grantee_exists (s : State) (p : Permission) : Prop :=
  grantee_known s (granteeId p) (granteeType p).

Definition grantees_exist (s : State) : Prop :=
  forall p, In p (permissions s) -> grantee_exists s p.

Definition principals_named (s : State) : Prop :=
  (forall u, In u (users s) -> blank (u_email u) = false) /\
  (forall g, In g (groups s) -> blank (g_name g) = false).

(** The two errors the specification calls Conflict. *)
Definition duplicate_email : PermissionError :=
  mkError INVALID_OPERATION "User with this email already exists".

Definition duplicate_group_name : PermissionError :=
  mkError INVALID_OPERATION "Group with this name already exists".

(** [splice(i, 1)] at the index [findIndex] returned, as a recursion. *)
Fixpoint remove_first {A} (f : A -> bool) (l : list A) : list A :=
  match l with
  | [] => []
  | x :: t => if f x then t else x :: remove_first f t
  end.

(** ** Scenarios *)

(** Alice is a member of the group Eng, which holds [download] on doc1. *)
Definition scenario : State :=
  run [CreateUser "u-alice" "Alice" "alice@x.com" role_user;
       CreateGroup "g-eng" "Eng" None;
       AddUserToGroup "u-alice" "g-eng";
       GrantPermission "p-1" 10 10 "doc1" "g-eng" grantee_group download "u-alice"]
    empty_state.

(** The storage after [initializePermissions]: one administrator, no grant. *)
Definition admin_only : State := initializePermissions "u-admin" empty_state.

(** ** Memberships and trimmed input *)

(** The members of every stored group are stored users, each listed once. *)
Definition members_valid (s : State) : Prop :=
  forall g, In g (groups s) ->
    NoDup (g_members g) /\
    forall m, In m (g_members g) -> In m (map u_id (users s)).

(** The calls whose email or name argument is already trimmed, which is how
    the permission dialog calls [createUser] and [createGroup]. *)
Definition trimmed_input (c : Call) : Prop :=
  match c with
  | CreateUser _ _ email _ => trim email = email
  | CreateGroup _ name _ => trim name = name
  | _ => True
  end.

Inductive reachable_trimmed : State -> Prop :=
| reach_trimmed_init : reachable_trimmed empty_state
| reach_trimmed_call : forall s c,
    reachable_trimmed s -> trimmed_input c -> reachable_trimmed (exec c s).

(** The stored emails are pairwise different and in lower case. *)
Definition emails_unique (s : State) : Prop :=
  NoDup (map u_email (users s)) /\
  forall u, In u (users s) -> toLowerCase (u_email u) = u_email u.

(** The stored group names are pairwise different, whatever their case. *)
Definition group_names_unique (s : State) : Prop :=
  NoDup (map (fun g => toLowerCase (g_name g)) (groups s)).

(** * Tag management

    The embedding of the tag module: its two arrays [tags] and
    [documentTags] are one [Store]; the module reassigns them in
    [deleteTag] and [removeTagFromDocument] and mutates them elsewhere. *)

Module Tags.

Record Tag := mkTag {
  tag_id : string;
  tag_name : string;
  color : option string;
  createdAt : Date;
  updatedAt : Date
}.

Record DocumentTag := mkDocumentTag {
  dt_documentId : string;
  dt_tagId : string
}.

Inductive TagErrorType :=
  VALIDATION_ERROR | NOT_FOUND | DUPLICATE_NAME | INVALID_OPERATION.

Record TagError := mkTagError {
  type : TagErrorType;
  message : string
}.

Inductive result (T : Type) :=
| Ok (v : T)
| Err (e : TagError).
Arguments Ok {T} v.
Arguments Err {T} e.

Record Store := mkStore {
  tags : list Tag;
  documentTags : list DocumentTag
}.

Definition empty_store : Store := mkStore [] [].

Definition createTag (uuid : string) (now now' : Date) (name : string)
    (c : option string) (s : Store) : result Tag * Store :=
  if falsy (trim name) then
    (Err (mkTagError VALIDATION_ERROR "Tag name cannot be empty"), s)
  else
    match find (fun t => toLowerCase (tag_name t) =? toLowerCase name) (tags s) with
    | Some _ =>
        (Err (mkTagError DUPLICATE_NAME "A tag with this name already exists"), s)
    | None =>
        let newTag := mkTag uuid (trim name) c now now' in
        (Ok newTag, mkStore (tags s ++ [newTag]) (documentTags s))
    end.

(** Reading [tags[tagIndex].name] throws when the slot is undefined; the
    [catch] block turns that into the "Failed to update tag" error. *)
Definition updateTag (now : Date) (id name : string) (c : option string)
    (s : Store) : result Tag * Store :=
  let tagIndex := findIndex (fun t => tag_id t =? id) (tags s) in
  if (tagIndex =? -1)%Z then
    (Err (mkTagError NOT_FOUND "Tag not found"), s)
  else
    match nth_error (tags s) (Z.to_nat tagIndex) with
    | None => (Err (mkTagError INVALID_OPERATION "Failed to update tag"), s)
    | Some current =>
        if negb (name =? tag_name current)
           && found (find (fun t => toLowerCase (tag_name t) =? toLowerCase name)
                       (tags s))
        then
          (Err (mkTagError DUPLICATE_NAME "A tag with this name already exists"), s)
        else
          let updatedTag :=
            mkTag (tag_id current) (trim name) c (createdAt current) now in
          (Ok updatedTag,
           mkStore (mutate_at (Z.to_nat tagIndex) (fun _ => updatedTag) (tags s))
             (documentTags s))
    end.

Definition deleteTag (id : string) (s : Store) : result bool * Store :=
  let tagIndex := findIndex (fun t => tag_id t =? id) (tags s) in
  if (tagIndex =? -1)%Z then
    (Err (mkTagError NOT_FOUND "Tag not found"), s)
  else
    (Ok true,
     mkStore (filter (fun t => negb (tag_id t =? id)) (tags s))
       (filter (fun dt => negb (dt_tagId dt =? id)) (documentTags s))).

Definition getTag (id : string) (s : Store) : result Tag :=
  match find (fun t => tag_id t =? id) (tags s) with
  | None => Err (mkTagError NOT_FOUND "Tag not found")
  | Some tag => Ok tag
  end.

(** [[...tags]]: a new array with the stored tags. *)
Definition getAllTags (s : Store) : list Tag := tags s.

Definition on_document (documentId tagId : string) (dt : DocumentTag) : bool :=
  (dt_documentId dt =? documentId) && (dt_tagId dt =? tagId).

Definition addTagToDocument (documentId tagId : string) (s : Store)
    : result bool * Store :=
  match find (fun t => tag_id t =? tagId) (tags s) with
  | None => (Err (mkTagError NOT_FOUND "Tag not found"), s)
  | Some _ =>
      match find (on_document documentId tagId) (documentTags s) with
      | Some _ =>
          (Err (mkTagError DUPLICATE_NAME "Document already has this tag"), s)
      | None =>
          (Ok true,
           mkStore (tags s) (documentTags s ++ [mkDocumentTag documentId tagId]))
      end
  end.

Definition removeTagFromDocument (documentId tagId : string) (s : Store)
    : result bool * Store :=
  let tagIndex := findIndex (on_document documentId tagId) (documentTags s) in
  if (tagIndex =? -1)%Z then
    (Err (mkTagError NOT_FOUND "Tag not found on document"), s)
  else
    (Ok true,
     mkStore (tags s)
       (filter (fun dt => negb (on_document documentId tagId dt)) (documentTags s))).

Definition getDocumentTags (documentId : string) (s : Store) : list Tag :=
  let documentTagIds :=
    map dt_tagId (filter (fun dt => dt_documentId dt =? documentId) (documentTags s)) in
  filter (fun tag => includes documentTagIds (tag_id tag)) (tags s).

Definition getDocumentsByTag (tagId : string) (s : Store) : list string :=
  map dt_documentId (filter (fun dt => dt_tagId dt =? tagId) (documentTags s)).

(** One call of an operation that can change the store. *)
Inductive Call :=
| CreateTag (uuid : string) (now now' : Date) (name : string) (c : option string)
| UpdateTag (now : Date) (id name : string) (c : option string)
| DeleteTag (id : string)
| AddTagToDocument (documentId tagId : string)
| RemoveTagFromDocument (documentId tagId : string).

Definition exec (c : Call) (s : Store) : Store :=
  match c with
  | CreateTag uuid now now' name c => snd (createTag uuid now now' name c s)
  | UpdateTag now id name c => snd (updateTag now id name c s)
  | DeleteTag id => snd (deleteTag id s)
  | AddTagToDocument documentId tagId => snd (addTagToDocument documentId tagId s)
  | RemoveTagFromDocument documentId tagId =>
      snd (removeTagFromDocument documentId tagId s)
  end.

Inductive reachable : Store -> Prop :=
| reach_init : reachable empty_store
| reach_call : forall s c, reachable s -> reachable (exec c s).

(** Every association names a stored tag, and none is recorded twice. *)
Definition associations_valid (s : Store) : Prop :=
  (forall dt, In dt (documentTags s) -> In (dt_tagId dt) (map tag_id (tags s))) /\
  NoDup (documentTags s).

(** The calls whose tag name is already trimmed. *)
Definition trimmed_input (c : Call) : Prop :=
  match c with
  | CreateTag _ _ _ name _ | UpdateTag _ _ name _ => trim name = name
  | _ => True
  end.

Inductive reachable_trimmed : Store -> Prop :=
| reach_trimmed_init : reachable_trimmed empty_store
| reach_trimmed_call : forall s c,
    reachable_trimmed s -> trimmed_input c -> reachable_trimmed (exec c s).

Definition names_unique (s : Store) : Prop :=
  NoDup (map (fun t => toLowerCase (tag_name t)) (tags s)).

(** Two tags, the first one on two documents. *)
Definition demo : Store :=
  fold_left (fun st c => exec c st)
    [CreateTag "t-1" 1 1 "Urgent" (Some "red");
     CreateTag "t-2" 2 2 "Draft" None;
     AddTagToDocument "doc1" "t-1";
     AddTagToDocument "doc2" "t-1";
     AddTagToDocument "doc1" "t-2"]
    empty_store.

End Tags.

(** * Folder management

    The embedding of the folder module; its array [folders] is the
    [list Folder] every operation takes and returns.  A loop runs on fuel:
    [None] means the fuel ran out with the loop still running. *)

Module Folders.

Record Folder := mkFolder {
  folder_id : string;
  folder_name : string;
  parentId : option string;
  createdAt : Date;
  updatedAt : Date;
  path : list string
}.

(** An optional property of type [string | null]: left out, null, or set. *)
Inductive ParentInput :=
| absent
| null
| given (id : string).

Record CreateFolderInput := mkCreateFolderInput {
  cf_name : string;
  cf_parentId : ParentInput
}.

Record UpdateFolderInput := mkUpdateFolderInput {
  uf_id : string;
  uf_name : option string;
  uf_parentId : ParentInput
}.

Inductive FolderErrorType :=
  VALIDATION_ERROR | NOT_FOUND | DUPLICATE_NAME | INVALID_OPERATION.

Record FolderError := mkFolderError {
  type : FolderErrorType;
  message : string
}.

Inductive result (T : Type) :=
| Ok (v : T)
| Err (e : FolderError).
Arguments Ok {T} v.
Arguments Err {T} e.

Definition Store := list Folder.

(** [===] on values of type [string | null]. *)
Definition parent_eqb (a b : option string) : bool :=
  match a, b with
  | None, None => true
  | Some x, Some y => x =? y
  | _, _ => false
  end.

(** [p || null]: the empty string is falsy too. *)
Definition or_null (p : ParentInput) : option string :=
  match p with
  | given id => if falsy id then None else Some id
  | _ => None
  end.

(** [p ?? d]: only a missing or null [p] gives way to [d]. *)
Definition or_else (p : ParentInput) (d : option string) : option string :=
  match p with
  | given id => Some id
  | _ => d
  end.

(** [p !== undefined && p !== d] *)
Definition changes_parent (p : ParentInput) (d : option string) : bool :=
  match p with
  | absent => false
  | null => negb (parent_eqb None d)
  | given id => negb (parent_eqb (Some id) d)
  end.

Definition createFolder (uuid : string) (now now' : Date)
    (input : CreateFolderInput) (folders : Store) : result Folder * Store :=
  if falsy (trim (cf_name input)) then
    (Err (mkFolderError VALIDATION_ERROR "Folder name cannot be empty"), folders)
  else
    match find (fun f =>
                  (toLowerCase (folder_name f) =? toLowerCase (cf_name input))
                  && parent_eqb (parentId f) (or_null (cf_parentId input)))
            folders with
    | Some _ =>
        (Err (mkFolderError DUPLICATE_NAME
                "A folder with this name already exists in this location"),
         folders)
    | None =>
        let create path :=
          let newFolder :=
            mkFolder uuid (trim (cf_name input)) (or_null (cf_parentId input))
              now now' path in
          (Ok newFolder, folders ++ [newFolder]) in
        match or_null (cf_parentId input) with
        | Some pid =>
            match find (fun f => folder_id f =? pid) folders with
            | None =>
                (Err (mkFolderError NOT_FOUND "Parent folder not found"), folders)
            | Some parentFolder =>
                create (path parentFolder ++ [folder_name parentFolder])
            end
        | None => create []
        end
    end.

Definition or_name (n : option string) (d : string) : string :=
  match n with Some x => x | None => d end.

(** Reading a property of [folders[folderIndex]] throws when the slot is
    undefined; the [catch] block turns that into "Failed to update folder". *)
Definition updateFolder (now : Date) (input : UpdateFolderInput)
    (folders : Store) : result Folder * Store :=
  let folderIndex := findIndex (fun f => folder_id f =? uf_id input) folders in
  if (folderIndex =? -1)%Z then
    (Err (mkFolderError NOT_FOUND "Folder not found"), folders)
  else
    match nth_error folders (Z.to_nat folderIndex) with
    | None => (Err (mkFolderError INVALID_OPERATION "Failed to update folder"), folders)
    | Some folder =>
        let duplicate :=
          match uf_name input with
          | Some name =>
              negb (name =? folder_name folder)
              && found
                   (find (fun f =>
                            (toLowerCase (folder_name f) =? toLowerCase name)
                            && parent_eqb (parentId f)
                                 (or_else (uf_parentId input) (parentId folder))
                            && negb (folder_id f =? folder_id folder))
                      folders)
          | None => false
          end in
        if duplicate then
          (Err (mkFolderError DUPLICATE_NAME
                  "A folder with this name already exists in this location"),
           folders)
        else
          let store path :=
            let updatedFolder :=
              mkFolder (folder_id folder)
                (or_name (uf_name input) (folder_name folder))
                (or_else (uf_parentId input) (parentId folder))
                (createdAt folder) now path in
            (Ok updatedFolder,
             mutate_at (Z.to_nat folderIndex) (fun _ => updatedFolder) folders) in
          if changes_parent (uf_parentId input) (parentId folder) then
            match uf_parentId input with
            | given pid =>
                match find (fun f => folder_id f =? pid) folders with
                | None =>
                    (Err (mkFolderError NOT_FOUND "Parent folder not found"),
                     folders)
                | Some parentFolder =>
                    store (path parentFolder ++ [folder_name parentFolder])
                end
            | _ => store []
            end
          else store (path folder)
    end.

Definition deleteFolder (folderId : string) (folders : Store)
    : result bool * Store :=
  let folderIndex := findIndex (fun f => folder_id f =? folderId) folders in
  if (folderIndex =? -1)%Z then
    (Err (mkFolderError NOT_FOUND "Folder not found"), folders)
  else if existsb (fun f => parent_eqb (parentId f) (Some folderId)) folders then
    (Err (mkFolderError INVALID_OPERATION
            "Cannot delete folder that contains other folders"), folders)
  else
    (Ok true, filter (fun f => negb (folder_id f =? folderId)) folders).

Definition getFolder (folderId : string) (folders : Store) : result Folder :=
  match find (fun f => folder_id f =? folderId) folders with
  | None => Err (mkFolderError NOT_FOUND "Folder not found")
  | Some folder => Ok folder
  end.

Definition getFolderChildren (parent : option string) (folders : Store)
    : list Folder :=
  filter (fun f => parent_eqb (parentId f) parent) folders.

(** The loop of [getFolderPath] and [getBreadcrumbPath]:
    [while (currentId) { ... path.unshift(currentFolder); ... }]. *)
Fixpoint walk_up (fuel : nat) (folders : Store) (currentId : string)
    (acc : list Folder) : option (list Folder) :=
  if falsy currentId then Some acc
  else
    match fuel with
    | O => None
    | S fuel' =>
        match find (fun f => folder_id f =? currentId) folders with
        | None => Some acc
        | Some currentFolder =>
            walk_up fuel' folders
              (match parentId currentFolder with Some p => p | None => "" end)
              (currentFolder :: acc)
        end
    end.

Definition getFolderPath (fuel : nat) (folderId : string) (folders : Store)
    : option (result (list Folder)) :=
  match find (fun f => folder_id f =? folderId) folders with
  | None => Some (Err (mkFolderError NOT_FOUND "Folder not found"))
  | Some _ => option_map Ok (walk_up fuel folders folderId [])
  end.

Definition getBreadcrumbPath (fuel : nat) (folderId : option string)
    (folders : Store) : option (result (list string)) :=
  match folderId with
  | None => Some (Ok ["Root"])
  | Some id =>
      if falsy id then Some (Ok ["Root"])
      else
        match find (fun f => folder_id f =? id) folders with
        | None => Some (Err (mkFolderError NOT_FOUND "Folder not found"))
        | Some _ =>
            option_map (fun p => Ok (map folder_name p)) (walk_up fuel folders id [])
        end
  end.

Definition initializeFolders (uuid : string) (now now' : Date) (folders : Store)
    : Store :=
  if (length folders =? 0)%nat then
    snd (createFolder uuid now now' (mkCreateFolderInput "Root" null) folders)
  else folders.

(** The calls that create and delete, but do not update. *)
Inductive Call :=
| CreateFolder (uuid : string) (now now' : Date) (input : CreateFolderInput)
| DeleteFolder (folderId : string)
| InitializeFolders (uuid : string) (now now' : Date).

Definition exec (c : Call) (folders : Store) : Store :=
  match c with
  | CreateFolder uuid now now' input => snd (createFolder uuid now now' input folders)
  | DeleteFolder folderId => snd (deleteFolder folderId folders)
  | InitializeFolders uuid now now' => initializeFolders uuid now now' folders
  end.

Inductive reachable_without_update : Store -> Prop :=
| reach_init : reachable_without_update []
| reach_call : forall s c,
    reachable_without_update s -> reachable_without_update (exec c s).

(** The stored path of a folder is right for the folders before it. *)
Definition parent_ok (before : Store) (f : Folder) : Prop :=
  match parentId f with
  | None => path f = []
  | Some p =>
      p <> "" /\
      exists q, find (fun f' => folder_id f' =? p) before = Some q /\
                path f = path q ++ [folder_name q]
  end.

Inductive paths_ok : Store -> Prop :=
| paths_nil : paths_ok []
| paths_snoc : forall before f,
    paths_ok before -> parent_ok before f -> paths_ok (before ++ [f]).

(** Root / Reports / 2024. *)
Definition demo : Store :=
  fold_left (fun st c => exec c st)
    [InitializeFolders "f-root" 1 1;
     CreateFolder "f-rep" 2 2 (mkCreateFolderInput "Reports" (given "f-root"));
     CreateFolder "f-24" 3 3 (mkCreateFolderInput "2024" (given "f-rep"))]
    [].

End Folders.

(** * File validation

    The embedding of the file validation module.  A [File] is what the
    module reads of it: its name, its MIME type and its size in bytes. *)

Module Files.

Record FileTypeDefinition := mkFileType {
  mimeType : string;
  extension : string;
  maxSize : Z;
  description : string
}.

Definition SUPPORTED_FILE_TYPES : list FileTypeDefinition :=
  [mkFileType "application/pdf" ".pdf" (10 * 1024 * 1024) "PDF Document";
   mkFileType "application/msword" ".doc" (10 * 1024 * 1024) "Word Document (DOC)";
   mkFileType
     "application/vnd.openxmlformats-officedocument.wordprocessingml.document"
     ".docx" (10 * 1024 * 1024) "Word Document (DOCX)";
   mkFileType "application/vnd.ms-excel" ".xls" (10 * 1024 * 1024)
     "Excel Spreadsheet (XLS)";
   mkFileType "application/vnd.openxmlformats-officedocument.spreadsheetml.sheet"
     ".xlsx" (10 * 1024 * 1024) "Excel Spreadsheet (XLSX)"].

Inductive ValidationErrorType :=
  INVALID_FILE_TYPE | FILE_TOO_LARGE | EMPTY_FILE | UNKNOWN_ERROR.

Record Details := mkDetails {
  d_fileType : option string;
  d_maxSize : option Z;
  d_actualSize : option Z
}.

Record ValidationError := mkValidationError {
  type : ValidationErrorType;
  message : string;
  details : option Details
}.

Record ValidationResult := mkValidationResult {
  isValid : bool;
  error : option ValidationError;
  fileType : option FileTypeDefinition
}.

Record File := mkFile {
  name : string;
  mime : string;
  size : Z
}.

(** [s.lastIndexOf(c)] for a one-character search string: the last
    position of [c], or -1. *)
Fixpoint lastIndexOf_from (i : Z) (s : string) (c : ascii) (last : Z) : Z :=
  match s with
  | EmptyString => last
  | String x t => lastIndexOf_from (i + 1) t c (if Ascii.eqb x c then i else last)
  end.

Definition lastIndexOf (s : string) (c : ascii) : Z :=
  lastIndexOf_from 0 s c (-1).

(** [x >>> 0]: the integer read as an unsigned 32-bit number. *)
Definition toUint32 (x : Z) : Z := x mod 2 ^ 32.

Fixpoint drop (n : nat) (s : string) : string :=
  match n, s with
  | O, _ => s
  | S _, EmptyString => EmptyString
  | S m, String _ t => drop m t
  end.

(** [s.slice(start)]: a negative start counts from the end, and the start
    is clamped to the string. *)
Definition slice (start : Z) (s : string) : string :=
  let len := Z.of_nat (String.length s) in
  let from := if (start <? 0)%Z then Z.max (len + start) 0 else Z.min start len in
  drop (Z.to_nat from) s.

Definition getFileExtension (filename : string) : string :=
  toLowerCase (slice (toUint32 (lastIndexOf filename "."%char - 1) + 2) filename).

Section Validation.

(** [formatFileSize] works on floating-point logarithms; the validation
    only puts its result into a message. *)
Variable formatFileSize : Z -> string.

Definition validateFile (file : option File) : ValidationResult :=
  match file with
  | None =>
      mkValidationResult false
        (Some (mkValidationError EMPTY_FILE "No file provided" None)) None
  | Some f =>
      let ext := getFileExtension (name f) in
      match find (fun t => (mimeType t =? mime f) || (extension t =? "." ++ ext))
              SUPPORTED_FILE_TYPES with
      | None =>
          mkValidationResult false
            (Some (mkValidationError INVALID_FILE_TYPE "Unsupported file type"
                     (Some (mkDetails (Some (mime f)) None None))))
            None
      | Some ft =>
          if (size f >? maxSize ft)%Z then
            mkValidationResult false
              (Some (mkValidationError FILE_TOO_LARGE
                       ("File size exceeds the maximum allowed size of "
                        ++ formatFileSize (maxSize ft))
                       (Some (mkDetails None (Some (maxSize ft)) (Some (size f))))))
              None
          else mkValidationResult true None (Some ft)
      end
  end.

End Validation.

(** The character occurs in the string. *)
Fixpoint contains (c : ascii) (s : string) : bool :=
  match s with
  | EmptyString => false
  | String x t => Ascii.eqb x c || contains c t
  end.

Definition supported_mime_types : list string :=
  ["application/pdf"; "application/msword";
   "application/vnd.openxmlformats-officedocument.wordprocessingml.document";
   "application/vnd.ms-excel";
   "application/vnd.openxmlformats-officedocument.spreadsheetml.sheet"].

Definition supported_extensions : list string :=
  ["pdf"; "doc"; "docx"; "xls"; "xlsx"].

End Files.

(** * Properties *)

(** ** The scenario of the specification, evaluated *)

Example trim_inner_space : trim "  Ada Lovelace  " = "Ada Lovelace".
Proof. reflexivity. Qed.

Example toLowerCase_email : toLowerCase "Alice@X.COM" = "alice@x.com".
Proof. reflexivity. Qed.

Example scenario_storage :
  scenario
  = mkState [mkUser "u-alice" "Alice" "alice@x.com" role_user]
      [mkGroup "g-eng" "Eng" None ["u-alice"]]
      [mkPermission "p-1" "doc1" "g-eng" grantee_group download "u-alice" 10 10].
Proof. reflexivity. Qed.

Example scenario_checks :
  checkPermission scenario "doc1" "u-alice" view = true /\
  checkPermission scenario "doc1" "u-alice" download = true /\
  checkPermission scenario "doc1" "u-alice" admin = false.
Proof. repeat split. Qed.

Example scenario_access_list :
  getDocumentAccessList scenario "doc1"
  = mkAccessList []
      [(Some (mkGroup "g-eng" "Eng" None ["u-alice"]),
        mkPermission "p-1" "doc1" "g-eng" grantee_group download "u-alice" 10 10)].
Proof. reflexivity. Qed.

Example scenario_remove_member :
  groups (snd (removeUserFromGroup "u-alice" "g-eng" scenario))
  = [mkGroup "g-eng" "Eng" None []].
Proof. reflexivity. Qed.

(** ** Strings *)

Lemma isWhiteSpace_lowerChar : forall c, isWhiteSpace (lowerChar c) = isWhiteSpace c.
Proof.
  intros [b0 b1 b2 b3 b4 b5 b6 b7].
  destruct b0, b1, b2, b3, b4, b5, b6, b7; reflexivity.
Qed.

Lemma blank_toLowerCase : forall s, blank (toLowerCase s) = blank s.
Proof.
  induction s as [|c t IH]; simpl; [reflexivity|].
  now rewrite isWhiteSpace_lowerChar, IH.
Qed.

Lemma trimStart_blank : forall s, blank s = true -> trimStart s = EmptyString.
Proof.
  induction s as [|c t IH]; simpl; intros H; [reflexivity|].
  apply andb_true_iff in H as [Hc Ht]. rewrite Hc. auto.
Qed.

Lemma trimStart_not_blank : forall s,
  blank s = false ->
  exists c t, trimStart s = String c t /\ isWhiteSpace c = false.
Proof.
  induction s as [|c t IH]; simpl; intros H; [discriminate|].
  destruct (isWhiteSpace c) eqn:Hc; simpl in *.
  - auto.
  - exists c, t. auto.
Qed.

Lemma trimEnd_blank : forall s, blank s = true -> trimEnd s = EmptyString.
Proof.
  induction s as [|c t IH]; simpl; intros H; [reflexivity|].
  apply andb_true_iff in H as [Hc Ht]. rewrite (IH Ht), Hc. reflexivity.
Qed.

Lemma trimEnd_head : forall c t,
  isWhiteSpace c = false -> exists t', trimEnd (String c t) = String c t'.
Proof.
  intros c t Hc. simpl. rewrite Hc.
  destruct (trimEnd t); eauto.
Qed.

Lemma falsy_trim : forall s, falsy (trim s) = blank s.
Proof.
  intros s. unfold trim. destruct (blank s) eqn:Hb.
  - now rewrite (trimStart_blank _ Hb).
  - destruct (trimStart_not_blank _ Hb) as (c & t & -> & Hc).
    destruct (trimEnd_head c t Hc) as [t' ->]. reflexivity.
Qed.

Lemma blank_trim : forall s, blank (trim s) = blank s.
Proof.
  intros s. unfold trim. destruct (blank s) eqn:Hb.
  - now rewrite (trimStart_blank _ Hb).
  - destruct (trimStart_not_blank _ Hb) as (c & t & -> & Hc).
    destruct (trimEnd_head c t Hc) as [t' ->]. simpl. now rewrite Hc.
Qed.

(** ** Arrays *)

Section Arrays.
Context {A : Type}.
Variable f : A -> bool.

Lemma findIndex_lower : forall l : list A, (-1 <= findIndex f l)%Z.
Proof.
  induction l as [|x t IH]; simpl; [lia|].
  destruct (f x); [lia|].
  destruct (Z.ltb_spec (findIndex f t) 0); lia.
Qed.

Lemma findIndex_find_none : forall l : list A,
  findIndex f l = (-1)%Z <-> find f l = None.
Proof.
  induction l as [|x t IH]; simpl; [tauto|].
  destruct (f x); [split; discriminate|].
  pose proof (findIndex_lower t).
  destruct (Z.ltb_spec (findIndex f t) 0); rewrite <- IH; split; lia.
Qed.

Lemma findIndex_none_forall : forall l : list A,
  findIndex f l = (-1)%Z <-> (forall x, In x l -> f x = false).
Proof.
  intros l. rewrite findIndex_find_none. split.
  - intros H x Hx. exact (find_none f l H x Hx).
  - intros H. destruct (find f l) as [x|] eqn:E; [|reflexivity].
    apply find_some in E as [Hin Hf]. rewrite (H x Hin) in Hf. discriminate.
Qed.

Lemma splice1_findIndex : forall l : list A,
  findIndex f l <> (-1)%Z -> splice1 (findIndex f l) l = remove_first f l.
Proof.
  unfold splice1. induction l as [|x t IH]; simpl; intros H; [congruence|].
  destruct (f x); [reflexivity|].
  pose proof (findIndex_lower t).
  destruct (Z.ltb_spec (findIndex f t) 0); [congruence|].
  replace (Z.to_nat (findIndex f t + 1)) with (S (Z.to_nat (findIndex f t))) by lia.
  simpl. f_equal. apply IH. lia.
Qed.

Lemma remove_first_none : forall l : list A,
  (forall x, In x l -> f x = false) -> remove_first f l = l.
Proof.
  induction l as [|x t IH]; simpl; intros H; [reflexivity|].
  rewrite (H x (or_introl eq_refl)). f_equal. auto.
Qed.

Lemma remove_first_In : forall (l : list A) x, In x (remove_first f l) -> In x l.
Proof.
  induction l as [|y t IH]; simpl; intros x H; [assumption|].
  destruct (f y); simpl in *; intuition.
Qed.

Lemma find_split : forall (l : list A) x,
  find f l = Some x ->
  exists l1 l2, l = l1 ++ x :: l2 /\ f x = true /\
                (forall y, In y l1 -> f y = false).
Proof.
  induction l as [|y t IH]; simpl; intros x H; [discriminate|].
  destruct (f y) eqn:Hy.
  - injection H as ->. exists [], t. simpl. intuition.
  - destruct (IH x H) as (l1 & l2 & -> & Hx & Hl1).
    exists (y :: l1), l2. simpl. intuition. now subst.
Qed.

Lemma mutate_found_split : forall (g : A -> A) (l1 l2 : list A) x,
  f x = true -> (forall y, In y l1 -> f y = false) ->
  mutate_found f g (l1 ++ x :: l2) = l1 ++ g x :: l2.
Proof.
  induction l1 as [|y t IH]; simpl; intros l2 x Hx H.
  - now rewrite Hx.
  - rewrite (H y (or_introl eq_refl)). f_equal. auto.
Qed.

Lemma mutate_found_In : forall (g : A -> A) (l : list A) x,
  In x (mutate_found f g l) ->
  In x l \/ exists y, In y l /\ f y = true /\ x = g y.
Proof.
  induction l as [|y t IH]; simpl; intros x H; [tauto|].
  destruct (f y) eqn:Hy; simpl in H.
  - destruct H as [<-|H]; [right; exists y|]; intuition.
  - destruct H as [<-|H]; [intuition|].
    destruct (IH x H) as [?|(z & ? & ? & ?)]; [intuition|].
    right. exists z. intuition.
Qed.

Lemma mutate_found_length : forall (g : A -> A) (l : list A),
  length (mutate_found f g l) = length l.
Proof.
  induction l as [|y t IH]; simpl; [reflexivity|].
  destruct (f y); simpl; congruence.
Qed.
End Arrays.

Lemma mutate_found_map {A B} (k : A -> B) (f : A -> bool) (g : A -> A) :
  (forall x, k (g x) = k x) ->
  forall l, map k (mutate_found f g l) = map k l.
Proof.
  intros Hk. induction l as [|y t IH]; simpl; [reflexivity|].
  destruct (f y); simpl; rewrite ?Hk, ?IH; reflexivity.
Qed.

Lemma mutate_at_map {A B} (k : A -> B) (g : A -> A) :
  (forall x, k (g x) = k x) ->
  forall i l, map k (mutate_at i g l) = map k l.
Proof.
  intros Hk i l. revert i.
  induction l as [|y t IH]; intros [|i]; simpl; rewrite ?Hk, ?IH; reflexivity.
Qed.

Lemma includes_In : forall l x, includes l x = true <-> In x l.
Proof.
  intros l x. unfold includes. rewrite existsb_exists. split.
  - intros (y & Hy & E). apply String.eqb_eq in E. now subst.
  - intros H. exists x. split; [assumption|apply String.eqb_refl].
Qed.

Lemma find_id_In {A} (k : A -> string) (l : list A) (x : string) :
  In x (map k l) <-> exists a, find (fun a => k a =? x) l = Some a.
Proof.
  split.
  - intros H. apply in_map_iff in H as (a & Ha & Hin).
    destruct (find (fun a => k a =? x) l) as [b|] eqn:E; [eauto|].
    pose proof (find_none _ _ E a Hin) as Hn. simpl in Hn.
    rewrite Ha, String.eqb_refl in Hn. discriminate.
  - intros (a & Ha). apply find_some in Ha as [Hin E].
    apply String.eqb_eq in E. apply in_map_iff. eauto.
Qed.

Lemma find_id_eq {A} (k : A -> string) (l : list A) (x : string) a :
  find (fun a => k a =? x) l = Some a -> In a l /\ k a = x.
Proof.
  intros H. apply find_some in H as [Hin E].
  apply String.eqb_eq in E. auto.
Qed.

(** ** The level hierarchy *)

Lemma indexOfLevel_pos : forall a, indexOfLevel levels a = Z.of_nat (level_pos a).
Proof. destruct a; reflexivity. Qed.

Lemma hasPermissionLevel_pos : forall a b,
  hasPermissionLevel a b = (level_pos b <=? level_pos a)%nat.
Proof. destruct a, b; reflexivity. Qed.

Lemma level_pos_inj : forall a b, level_pos a = level_pos b -> a = b.
Proof. destruct a, b; simpl; congruence. Qed.

(** C4: the satisfaction relation of the engine is the total order
    view < edit < download < admin.  Every level sits in the sequence
    [view, edit, download, admin] at its position, [indexOf] finds that
    position, and level [a] satisfies the required level [b] exactly when
    the position of [a] is greater than or equal to the position of [b]. *)
Theorem hasPermissionLevel_is_position_order : forall a b,
  nth_error levels (level_pos a) = Some a /\
  indexOfLevel levels a = Z.of_nat (level_pos a) /\
  (hasPermissionLevel a b = true <-> (level_pos b <= level_pos a)%nat).
Proof.
  intros a b. split; [destruct a; reflexivity|].
  split; [apply indexOfLevel_pos|].
  rewrite hasPermissionLevel_pos. apply Nat.leb_le.
Qed.

(** ** The resolution engine *)

Lemma highestLevel_max_level : forall ps, highestLevel ps = max_level ps.
Proof.
  unfold highestLevel, max_level. intros ps. generalize view.
  induction ps as [|p t IH]; intros acc; simpl; [reflexivity|].
  rewrite IH. f_equal.
  rewrite hasPermissionLevel_pos.
  destruct (Nat.leb_spec (level_pos acc) (level_pos (level p)));
    destruct (Nat.ltb_spec (level_pos acc) (level_pos (level p)));
    try reflexivity; try lia.
  apply level_pos_inj. lia.
Qed.

Section Fold.
Let step (m : PermissionLevel) (p : Permission) : PermissionLevel :=
  if (level_pos m <? level_pos (level p))%nat then level p else m.

Lemma step_bounds : forall acc p,
  (level_pos acc <= level_pos (step acc p))%nat /\
  (level_pos (level p) <= level_pos (step acc p))%nat.
Proof.
  intros acc p. unfold step.
  destruct (Nat.ltb_spec (level_pos acc) (level_pos (level p))); lia.
Qed.

Lemma fold_level_ge_start : forall ps acc,
  (level_pos acc <= level_pos (fold_left step ps acc))%nat.
Proof.
  induction ps as [|p t IH]; intros acc; simpl; [lia|].
  specialize (IH (step acc p)). pose proof (step_bounds acc p). lia.
Qed.

Lemma fold_level_upper : forall ps acc p,
  In p ps -> (level_pos (level p) <= level_pos (fold_left step ps acc))%nat.
Proof.
  induction ps as [|q t IH]; intros acc p H; simpl in *; [tauto|].
  destruct H as [->|H]; [|auto].
  pose proof (fold_level_ge_start t (step acc p)) as Hge.
  pose proof (step_bounds acc p). lia.
Qed.

Lemma fold_level_attained : forall ps acc,
  fold_left step ps acc = acc \/
  exists p, In p ps /\ level p = fold_left step ps acc.
Proof.
  induction ps as [|q t IH]; intros acc; simpl; [auto|].
  destruct (IH (step acc q)) as [E|(p & Hp & E)].
  - rewrite E. unfold step.
    destruct (level_pos acc <? level_pos (level q))%nat; eauto.
  - right. eauto.
Qed.
End Fold.

Lemma max_level_upper : forall ps p,
  In p ps -> (level_pos (level p) <= level_pos (max_level ps))%nat.
Proof. intros ps p. apply fold_level_upper. Qed.

Lemma max_level_attained : forall ps,
  ps <> [] -> exists p, In p ps /\ level p = max_level ps.
Proof.
  intros ps Hne. destruct (fold_level_attained ps view) as [E|H]; [|exact H].
  destruct ps as [|q t]; [congruence|].
  exists q. split; [left; reflexivity|].
  apply level_pos_inj. apply Nat.le_antisymm.
  - apply max_level_upper. left. reflexivity.
  - unfold max_level. rewrite E. simpl.
    destruct (level q); simpl; try lia.
    all: exfalso; simpl in E.
    all: pose proof (fold_level_ge_start t) as G; simpl in G.
    all: match type of E with fold_left _ _ ?a = _ => specialize (G a) end.
    all: rewrite E in G; simpl in G; lia.
Qed.

Lemma granteeType_eqb_eq : forall a b, granteeType_eqb a b = true <-> a = b.
Proof. destruct a, b; simpl; split; congruence. Qed.

Lemma documentPermissionsOf_effective : forall s docId userId p,
  In p (documentPermissionsOf s docId userId) <-> in_effective s docId userId p.
Proof.
  intros s docId userId p.
  unfold documentPermissionsOf, getUserPermissions, in_effective, member_of.
  rewrite !filter_In, orb_true_iff, !andb_true_iff, !granteeType_eqb_eq,
    !String.eqb_eq, includes_In, in_map_iff.
  split.
  - intros [[Hin [H|[Ht (g & Hid & Hg)]]] Hd]; repeat split; auto.
    right. split; [assumption|].
    apply filter_In in Hg as [Hg Hm]. apply includes_In in Hm. eauto.
  - intros (Hin & Hd & [H|[Ht (g & Hg & Hid & Hm)]]); repeat split; auto.
    right. split; [assumption|].
    exists g. split; [assumption|].
    apply filter_In. split; [assumption|]. now apply includes_In.
Qed.

(** C2: a user whose stored role is admin passes every check, whatever the
    document and the required level, and whatever grants are recorded. *)
Theorem checkPermission_admin_bypass : forall s docId userId requiredLevel user,
  find (fun u => u_id u =? userId) (users s) = Some user ->
  u_role user = role_admin ->
  checkPermission s docId userId requiredLevel = true.
Proof.
  intros s docId userId requiredLevel user Hfind Hrole.
  unfold checkPermission, is_admin. now rewrite Hfind, Hrole.
Qed.

Lemma checkPermission_admin_bypass_witness :
  permissions admin_only = [] /\
  checkPermission admin_only "doc1" "u-admin" admin = true.
Proof.
  split; [reflexivity|].
  apply (checkPermission_admin_bypass admin_only "doc1" "u-admin" admin
           (mkUser "u-admin" "Admin" "admin@example.com" role_admin));
    reflexivity.
Defined.

(** C1: for a user who is not an administrator, the permissions
    [checkPermission] looks at are exactly the effective permission set (the
    grants on the document made to the user, or to a group that has the user
    among its members); the check fails when that set is empty, and
    otherwise succeeds exactly when the maximum level of the set, folded
    from [view], is at or above the required level.  The fold yields an
    upper bound of the set that one of its members attains. *)
Theorem checkPermission_non_admin : forall s docId userId requiredLevel,
  is_admin s userId = false ->
  let effective := documentPermissionsOf s docId userId in
  (forall p, In p effective <-> in_effective s docId userId p) /\
  (effective = [] -> checkPermission s docId userId requiredLevel = false) /\
  (effective <> [] ->
     (checkPermission s docId userId requiredLevel = true <->
      (level_pos requiredLevel <= level_pos (max_level effective))%nat)) /\
  (forall p, In p effective ->
     (level_pos (level p) <= level_pos (max_level effective))%nat) /\
  (effective <> [] -> exists p, In p effective /\ level p = max_level effective).
Proof.
  intros s docId userId requiredLevel Hadmin effective.
  split; [apply documentPermissionsOf_effective|].
  unfold checkPermission. rewrite Hadmin. fold effective.
  split; [intros ->; reflexivity|].
  split.
  - intros Hne. destruct effective as [|p t] eqn:E; [congruence|].
    cbn [length Nat.eqb]. rewrite highestLevel_max_level, hasPermissionLevel_pos.
    apply Nat.leb_le.
  - split; [apply max_level_upper|apply max_level_attained].
Qed.

Lemma checkPermission_non_admin_witness :
  is_admin scenario "u-alice" = false /\
  (checkPermission scenario "doc1" "u-alice" edit = true <->
   (level_pos edit
    <= level_pos (max_level (documentPermissionsOf scenario "doc1" "u-alice")))%nat).
Proof.
  split; [reflexivity|].
  apply (checkPermission_non_admin scenario "doc1" "u-alice" edit eq_refl).
  discriminate.
Defined.

(** ** What a call does to the three arrays *)

Ltac open_call :=
  unfold initializePermissions;
  unfold createUser, createGroup, addUserToGroup, removeUserFromGroup,
    grantPermission, revokePermission;
  repeat match goal with
         | |- context [if ?b then _ else _] => destruct b eqn:?
         | |- context [match find ?f ?l with _ => _ end] => destruct (find f l) eqn:?
         | |- context [match nth_error ?l ?i with _ => _ end] =>
             destruct (nth_error l i) eqn:?
         end;
  cbn [fst snd users groups permissions].

Lemma users_exec : forall c s, users (exec c s) = users s ++ created_user c s.
Proof.
  intros c s. destruct c; cbn [exec created_user]; open_call;
    cbn [fst snd users]; rewrite ?app_nil_r; reflexivity.
Qed.

Lemma with_members_id : forall f g, g_id (with_members f g) = g_id g.
Proof. reflexivity. Qed.

Lemma with_members_name : forall f g, g_name (with_members f g) = g_name g.
Proof. reflexivity. Qed.

Lemma groups_exec_ids : forall c s,
  map g_id (groups (exec c s)) = map g_id (groups s) ++ map g_id (created_group c s).
Proof.
  intros c s. destruct c; cbn [exec created_group]; open_call;
    cbn [fst snd groups map];
    rewrite ?(mutate_at_map g_id _ (with_members_id _)), ?map_app, ?app_nil_r;
    reflexivity.
Qed.

Lemma groups_exec_names : forall c s,
  map g_name (groups (exec c s))
  = map g_name (groups s) ++ map g_name (created_group c s).
Proof.
  intros c s. destruct c; cbn [exec created_group]; open_call;
    cbn [fst snd groups map];
    rewrite ?(mutate_at_map g_name _ (with_members_name _)), ?map_app, ?app_nil_r;
    reflexivity.
Qed.

Lemma permissions_exec_other : forall c s,
  grant_call c = false -> permissions (exec c s) = permissions s.
Proof.
  intros c s H. destruct c; try discriminate; cbn [exec]; open_call; reflexivity.
Qed.

Lemma grant_frame : forall uuid now now' docId gId gType lvl by_ s,
  users (snd (grantPermission uuid now now' docId gId gType lvl by_ s)) = users s /\
  groups (snd (grantPermission uuid now now' docId gId gType lvl by_ s)) = groups s.
Proof. intros. open_call; auto. Qed.

Lemma revoke_frame : forall docId gId gType s,
  users (snd (revokePermission docId gId gType s)) = users s /\
  groups (snd (revokePermission docId gId gType s)) = groups s.
Proof. intros. open_call; auto. Qed.

Lemma revoke_permissions : forall docId gId gType s,
  permissions (snd (revokePermission docId gId gType s))
  = remove_first (same_grant docId gId gType) (permissions s).
Proof.
  intros. unfold revokePermission.
  destruct (Z.eqb_spec (findIndex (same_grant docId gId gType) (permissions s)) (-1))
    as [E|E]; cbn [snd permissions].
  - symmetry. apply remove_first_none. now apply findIndex_none_forall.
  - now apply splice1_findIndex.
Qed.

(** ** Invariants of the storage *)

Lemma same_grant_key : forall docId gId gType p,
  same_grant docId gId gType p = true <-> grant_key p = (docId, gId, gType).
Proof.
  intros. unfold same_grant, grant_key.
  rewrite !andb_true_iff, !String.eqb_eq, granteeType_eqb_eq.
  split; [intros [[-> ->] ->]; reflexivity|intros [= -> -> ->]; auto].
Qed.

Lemma regrant_key : forall lvl now p, grant_key (regrant lvl now p) = grant_key p.
Proof. reflexivity. Qed.

Lemma regrant_same_grant : forall docId gId gType lvl now p,
  same_grant docId gId gType (regrant lvl now p) = same_grant docId gId gType p.
Proof. reflexivity. Qed.

Lemma NoDup_snoc {A} (l : list A) (x : A) :
  NoDup l -> ~ In x l -> NoDup (l ++ [x]).
Proof.
  intros Hl Hx. apply NoDup_app; [assumption|repeat constructor; simpl; tauto|].
  intros a Ha [<-|[]]. contradiction.
Qed.

Lemma remove_first_NoDup {A B} (k : A -> B) (f : A -> bool) : forall l,
  NoDup (map k l) -> NoDup (map k (remove_first f l)).
Proof.
  induction l as [|x t IH]; simpl; intros H; [assumption|].
  inversion H as [|? ? Hx Ht]; subst.
  destruct (f x); [assumption|]. simpl. constructor; [|auto].
  intros Hin. apply Hx. apply in_map_iff in Hin as (y & Hy & Hin).
  apply in_map_iff. exists y. split; [assumption|].
  eapply remove_first_In; eassumption.
Qed.

(** Once the first grant on a tuple is removed none is left, when the tuple
    identifies at most one grant. *)
Lemma remove_first_same_grant : forall docId gId gType l,
  NoDup (map grant_key l) ->
  forall p, In p (remove_first (same_grant docId gId gType) l) ->
            same_grant docId gId gType p = false.
Proof.
  induction l as [|x t IH]; simpl; intros H p Hp; [tauto|].
  inversion H as [|? ? Hx Ht]; subst.
  destruct (same_grant docId gId gType x) eqn:Ex.
  - destruct (same_grant docId gId gType p) eqn:Ep; [|reflexivity].
    exfalso. apply Hx. apply same_grant_key in Ex, Ep.
    rewrite Ex, <- Ep. now apply in_map.
  - destruct Hp as [<-|Hp]; auto.
Qed.

Lemma grant_validated : forall gId gType us gs,
  granteeType_eqb gType grantee_user
  && negb (found (find (fun u => u_id u =? gId) us)) = false ->
  granteeType_eqb gType grantee_group
  && negb (found (find (fun g => g_id g =? gId) gs)) = false ->
  match gType with
  | grantee_user => In gId (map u_id us)
  | grantee_group => In gId (map g_id gs)
  end.
Proof.
  intros gId gType us gs Hu Hg. destruct gType; simpl in *.
  - apply find_id_In. destruct (find _ us); [eauto|discriminate].
  - apply find_id_In. destruct (find _ gs); [eauto|discriminate].
Qed.

Lemma unique_grants_exec : forall c s, unique_grants s -> unique_grants (exec c s).
Proof.
  unfold unique_grants. intros c s H.
  destruct (grant_call c) eqn:Ec;
    [|now rewrite permissions_exec_other].
  destruct c; try discriminate; cbn [exec].
  - open_call; try assumption.
    + now rewrite (mutate_found_map grant_key _ _ (regrant_key lvl now)).
    + rewrite map_app. apply NoDup_snoc; [assumption|].
      intros Hin. apply in_map_iff in Hin as (q & Hq & Hin).
      assert (Hk : grant_key q = (docId, gId, gType)) by (now rewrite Hq).
      apply same_grant_key in Hk.
      match goal with E : find _ _ = None |- _ =>
        rewrite (find_none _ _ E q Hin) in Hk end.
      discriminate.
  - rewrite revoke_permissions. now apply remove_first_NoDup.
Qed.

Lemma user_ids_exec : forall c s x,
  In x (map u_id (users s)) -> In x (map u_id (users (exec c s))).
Proof.
  intros c s x H. rewrite users_exec, map_app. apply in_or_app. auto.
Qed.

Lemma group_ids_exec : forall c s x,
  In x (map g_id (groups s)) -> In x (map g_id (groups (exec c s))).
Proof.
  intros c s x H. rewrite groups_exec_ids. apply in_or_app. auto.
Qed.

Lemma grantee_exists_exec : forall c s p,
  grantee_exists s p -> grantee_exists (exec c s) p.
Proof.
  unfold grantee_exists. intros c s p. destruct (granteeType p).
  - apply user_ids_exec.
  - apply group_ids_exec.
Qed.

Lemma grantees_exist_exec : forall c s, grantees_exist s -> grantees_exist (exec c s).
Proof.
  intros c s H p Hp. apply grantee_exists_exec.
  destruct (grant_call c) eqn:Ec;
    [|rewrite permissions_exec_other in Hp; auto].
  destruct c; try discriminate; cbn [exec] in Hp.
  - revert Hp. open_call; auto.
    + intros Hp. apply mutate_found_In in Hp as [Hp|(q & Hq & _ & ->)]; auto.
      exact (H q Hq).
    + intros Hp. apply in_app_or in Hp as [Hp|[<-|[]]]; auto.
      unfold grantee_exists. cbn. now apply grant_validated.
  - rewrite revoke_permissions in Hp. apply H.
    eapply remove_first_In; eassumption.
Qed.

Lemma principals_named_exec : forall c s,
  principals_named s -> principals_named (exec c s).
Proof.
  intros c s [Hu Hg]. split.
  - intros u. rewrite users_exec. intros Hin.
    apply in_app_or in Hin as [Hin|Hin]; [auto|].
    destruct c; cbn [created_user] in Hin; try contradiction;
      revert Hin; open_call; cbn [In]; try tauto;
      intros [<-|[]]; cbn [u_email];
      match goal with E : _ || _ = false |- _ =>
        apply orb_false_iff in E as [_ E]; rewrite falsy_trim in E end;
      now rewrite blank_trim, blank_toLowerCase.
  - assert (Hn : forall n, In n (map g_name (groups s)) -> blank n = false).
    { intros n Hn. apply in_map_iff in Hn as (g & <- & Hin). auto. }
    assert (Hn' : forall n, In n (map g_name (groups (exec c s))) -> blank n = false).
    { intros n. rewrite groups_exec_names. intros Hin.
      apply in_app_or in Hin as [Hin|Hin]; [auto|].
      destruct c; cbn [created_group map] in Hin; try contradiction.
      revert Hin. open_call; cbn [In map g_name]; try tauto.
      intros [<-|[]].
      match goal with E : falsy _ = false |- _ => rewrite falsy_trim in E end.
      now rewrite blank_trim. }
    intros g Hin. apply Hn'. now apply in_map.
Qed.

Lemma reachable_invariants : forall s,
  reachable s -> unique_grants s /\ grantees_exist s /\ principals_named s.
Proof.
  induction 1 as [|s c _ (Hu & He & Hn)].
  - repeat split; try (intros ? []). constructor.
  - auto using unique_grants_exec, grantees_exist_exec, principals_named_exec.
Qed.

Lemma reachable_run : forall cs s, reachable s -> reachable (run cs s).
Proof.
  unfold run. induction cs as [|c t IH]; simpl; intros s H; [assumption|].
  apply IH. now constructor.
Qed.

Lemma reachable_scenario : reachable scenario.
Proof. apply reachable_run. constructor. Qed.

Lemma NoDup_map_inj {A B} (k : A -> B) : forall l a b,
  NoDup (map k l) -> In a l -> In b l -> k a = k b -> a = b.
Proof.
  induction l as [|x t IH]; simpl; intros a b H Ha Hb E; [tauto|].
  inversion H as [|? ? Hx Ht]; subst.
  destruct Ha as [->|Ha], Hb as [->|Hb]; auto.
  - exfalso. apply Hx. rewrite E. now apply in_map.
  - exfalso. apply Hx. rewrite <- E. now apply in_map.
Qed.

Lemma grantee_exists_validated : forall s p,
  grantee_exists s p ->
  granteeType_eqb (granteeType p) grantee_user
  && negb (found (find (fun u => u_id u =? granteeId p) (users s))) = false /\
  granteeType_eqb (granteeType p) grantee_group
  && negb (found (find (fun g => g_id g =? granteeId p) (groups s))) = false.
Proof.
  unfold grantee_exists. intros s p H.
  destruct (granteeType p); simpl; apply find_id_In in H as [a Ha];
    rewrite Ha; auto.
Qed.

(** C3: in a reachable state no two stored permissions share their
    (documentId, granteeId, granteeType) tuple; and granting on a tuple that
    already has a permission succeeds, returns that permission with the new
    level and [updatedAt], and leaves the array as it was but for that one
    slot: same length, same neighbours, and the slot keeps its id, its
    tuple, [grantedBy] and [grantedAt]. *)
Theorem grants_unique_and_regrant_in_place : forall s,
  reachable s ->
  unique_grants s /\
  forall uuid now now' docId gId gType lvl by_ existing,
    In existing (permissions s) ->
    grant_key existing = (docId, gId, gType) ->
    exists before after updated,
      permissions s = before ++ existing :: after /\
      grantPermission uuid now now' docId gId gType lvl by_ s
      = (Ok updated,
         mkState (users s) (groups s) (before ++ updated :: after)) /\
      level updated = lvl /\ updatedAt updated = now /\
      p_id updated = p_id existing /\
      grant_key updated = grant_key existing /\
      grantedBy updated = grantedBy existing /\
      grantedAt updated = grantedAt existing /\
      length (before ++ updated :: after) = length (permissions s).
Proof.
  intros s Hr. destruct (reachable_invariants s Hr) as (Hu & He & _).
  split; [assumption|].
  intros uuid now now' docId gId gType lvl by_ existing Hin Hkey.
  pose proof (proj2 (same_grant_key docId gId gType existing) Hkey) as Hsame.
  destruct (find (same_grant docId gId gType) (permissions s)) as [q|] eqn:Hfind.
  2:{ rewrite (find_none _ _ Hfind existing Hin) in Hsame. discriminate. }
  assert (q = existing) as ->.
  { pose proof (find_some _ _ Hfind) as [Hq Hfq].
    apply same_grant_key in Hfq.
    apply (NoDup_map_inj grant_key (permissions s)); auto. congruence. }
  destruct (find_split _ _ _ Hfind) as (before & after & Hsplit & _ & Hbefore).
  exists before, after, (regrant lvl now existing).
  split; [assumption|]. split.
  - destruct (grantee_exists_validated s existing (He existing Hin)) as [Hv1 Hv2].
    injection Hkey as Hd Hg Ht. rewrite Hg, Ht in Hv1, Hv2.
    unfold grantPermission. rewrite Hv1, Hv2, Hfind. do 2 f_equal.
    rewrite Hsplit at 1. now apply mutate_found_split.
  - repeat split. rewrite Hsplit, !length_app. reflexivity.
Qed.

Lemma grants_unique_and_regrant_in_place_witness :
  reachable scenario /\
  unique_grants scenario /\
  exists before after updated,
    permissions scenario
    = before
      ++ mkPermission "p-1" "doc1" "g-eng" grantee_group download "u-alice" 10 10
      :: after /\
    grantPermission "p-2" 20 21 "doc1" "g-eng" grantee_group view "u-bob" scenario
    = (Ok updated,
       mkState (users scenario) (groups scenario) (before ++ updated :: after)) /\
    level updated = view /\ updatedAt updated = 20%Z /\ p_id updated = "p-1".
Proof.
  split; [exact reachable_scenario|].
  destruct (grants_unique_and_regrant_in_place scenario reachable_scenario)
    as [Hu Hg].
  split; [exact Hu|].
  destruct (Hg "p-2" 20%Z 21%Z "doc1" "g-eng" grantee_group view "u-bob"
              (mkPermission "p-1" "doc1" "g-eng" grantee_group download
                 "u-alice" 10 10))
    as (before & after & updated & H1 & H2 & H3 & H4 & H5 & _).
  - left. reflexivity.
  - reflexivity.
  - exists before, after, updated. auto.
Defined.

(** ** The access list *)

Lemma find_id_some {A} (k : A -> string) (l : list A) (x : string) :
  In x (map k l) ->
  exists a, find (fun a => k a =? x) l = Some a /\ In a l /\ k a = x.
Proof.
  intros H. apply find_id_In in H as [a Ha].
  exists a. split; [assumption|]. eapply find_id_eq; eassumption.
Qed.

(** C9: in a reachable state every stored permission names a stored user
    (grantee type user) or a stored group (grantee type group); no call
    removes the id of a principal; so each lookup of
    [getDocumentAccessList] finds a principal, and every entry pairs a
    stored permission on the document with the stored user or group that
    bears its grantee id. *)
Theorem access_list_principals_exist : forall s,
  reachable s ->
  grantees_exist s /\
  (forall c x,
     (In x (map u_id (users s)) -> In x (map u_id (users (exec c s)))) /\
     (In x (map g_id (groups s)) -> In x (map g_id (groups (exec c s))))) /\
  forall docId,
    (forall o p, In (o, p) (al_users (getDocumentAccessList s docId)) ->
       In p (permissions s) /\ documentId p = docId /\
       granteeType p = grantee_user /\
       exists u, o = Some u /\ In u (users s) /\ u_id u = granteeId p) /\
    (forall o p, In (o, p) (al_groups (getDocumentAccessList s docId)) ->
       In p (permissions s) /\ documentId p = docId /\
       granteeType p = grantee_group /\
       exists g, o = Some g /\ In g (groups s) /\ g_id g = granteeId p).
Proof.
  intros s Hr. destruct (reachable_invariants s Hr) as (_ & He & _).
  split; [assumption|].
  split; [split; [apply user_ids_exec|apply group_ids_exec]|].
  intros docId. unfold getDocumentAccessList, getDocumentPermissions. cbn.
  split; intros o p Hin;
    apply in_map_iff in Hin as (q & [= <- <-] & Hq);
    apply filter_In in Hq as [Hq Ht]; apply filter_In in Hq as [Hq Hd];
    apply granteeType_eqb_eq in Ht; apply String.eqb_eq in Hd;
    repeat (split; [assumption|]);
    specialize (He q Hq); unfold grantee_exists in He; rewrite Ht in He;
    apply find_id_some in He as (a & -> & Ha & Hid); eauto.
Qed.

Lemma access_list_principals_exist_witness :
  reachable scenario /\
  forall o p, In (o, p) (al_groups (getDocumentAccessList scenario "doc1")) ->
    In p (permissions scenario) /\ documentId p = "doc1" /\
    granteeType p = grantee_group /\
    exists g, o = Some g /\ In g (groups scenario) /\ g_id g = granteeId p.
Proof.
  split; [exact reachable_scenario|].
  apply (access_list_principals_exist scenario reachable_scenario).
Defined.

(** ** Failed calls *)

Lemma find_id_none {A} (k : A -> string) (l : list A) (x : string) :
  ~ In x (map k l) -> find (fun a => k a =? x) l = None.
Proof.
  intros H. destruct (find (fun a => k a =? x) l) as [a|] eqn:E; [|reflexivity].
  exfalso. apply H. apply find_id_In. eauto.
Qed.

Lemma no_grant_on_tuple : forall docId gId gType l,
  (forall p, In p l -> grant_key p <> (docId, gId, gType)) <->
  (forall p, In p l -> same_grant docId gId gType p = false).
Proof.
  intros. split; intros H p Hp; specialize (H p Hp).
  - destruct (same_grant docId gId gType p) eqn:E; [|reflexivity].
    apply same_grant_key in E. contradiction.
  - intros E. apply same_grant_key in E. congruence.
Qed.

(** C8: a call of [grantPermission] that returns an error returns the
    storage it was given, and a grantee id that names no stored principal
    of the given type makes it return a NOT_FOUND error;
    [revokePermission] returns the NOT_FOUND error, with the storage it was
    given, exactly when no stored permission has the tuple, and any error it
    returns is that one. *)
Theorem failed_grant_or_revoke_changes_nothing : forall s docId gId gType,
  (forall uuid now now' lvl by_ e,
     fst (grantPermission uuid now now' docId gId gType lvl by_ s) = Err e ->
     snd (grantPermission uuid now now' docId gId gType lvl by_ s) = s) /\
  (forall uuid now now' lvl by_,
     ~ grantee_known s gId gType ->
     exists e,
       grantPermission uuid now now' docId gId gType lvl by_ s = (Err e, s) /\
       e_type e = NOT_FOUND) /\
  ((forall p, In p (permissions s) -> grant_key p <> (docId, gId, gType)) <->
   revokePermission docId gId gType s
   = (Err (mkError NOT_FOUND "Permission not found"), s)) /\
  (forall e,
     fst (revokePermission docId gId gType s) = Err e ->
     revokePermission docId gId gType s
     = (Err (mkError NOT_FOUND "Permission not found"), s)).
Proof.
  intros s docId gId gType. repeat split.
  - intros uuid now now' lvl by_ e. open_call; cbn; congruence.
  - intros uuid now now' lvl by_ Hno. unfold grantPermission.
    destruct gType; cbn [grantee_known] in Hno;
      rewrite (find_id_none _ _ _ Hno); cbn; eauto.
  - intros H.
    pose proof (proj1 (no_grant_on_tuple docId gId gType _) H) as H'.
    apply findIndex_none_forall in H'.
    unfold revokePermission. now rewrite H'.
  - unfold revokePermission.
    destruct (Z.eqb_spec (findIndex (same_grant docId gId gType) (permissions s))
                (-1)) as [E|E]; [|discriminate].
    intros _. apply no_grant_on_tuple. now apply findIndex_none_forall.
  - intros e. open_call; cbn; congruence.
Qed.

Lemma failed_grant_or_revoke_changes_nothing_witness :
  ~ grantee_known scenario "u-nobody" grantee_user /\
  exists e,
    grantPermission "p-2" 20 20 "doc1" "u-nobody" grantee_user edit "u-alice" scenario
    = (Err e, scenario) /\ e_type e = NOT_FOUND.
Proof.
  assert (H : ~ grantee_known scenario "u-nobody" grantee_user).
  { cbn. intros [H|[]]. discriminate. }
  split; [exact H|].
  apply (failed_grant_or_revoke_changes_nothing scenario "doc1" "u-nobody"
           grantee_user).
  exact H.
Defined.

(** ** Revoking *)

Lemma grant_permissions_In : forall uuid now now' docId gId gType lvl by_ s p,
  In p (permissions (snd (grantPermission uuid now now' docId gId gType lvl by_ s))) ->
  In p (permissions s) \/ same_grant docId gId gType p = true.
Proof.
  intros uuid now now' docId gId gType lvl by_ s p. open_call; auto.
  - intros H. apply mutate_found_In in H as [H|(q & _ & Hq & ->)]; auto.
  - intros H. apply in_app_or in H as [H|[<-|[]]]; auto.
    right. apply same_grant_key. reflexivity.
Qed.

Lemma is_admin_users : forall s s' userId,
  users s' = users s -> is_admin s' userId = is_admin s userId.
Proof. unfold is_admin. intros s s' userId ->. reflexivity. Qed.

Lemma checkPermission_no_grant : forall s docId userId requiredLevel,
  is_admin s userId = false ->
  (forall p, ~ in_effective s docId userId p) ->
  checkPermission s docId userId requiredLevel = false.
Proof.
  intros s docId userId requiredLevel Ha Hno. unfold checkPermission.
  rewrite Ha. destruct (documentPermissionsOf s docId userId) as [|p t] eqn:E;
    [reflexivity|].
  exfalso. apply (Hno p). apply documentPermissionsOf_effective.
  rewrite E. now left.
Qed.

(** C7: let a user who is not an administrator have no grant on the
    document other than through the tuple (directly as the grantee, or as a
    member of the grantee group).  After [grantPermission] on the tuple
    followed by [revokePermission] on it, [checkPermission] answers false
    for that user and document at every required level. *)
Theorem revoke_after_grant_removes_access :
  forall s uuid now now' docId gId gType lvl by_ userId requiredLevel,
  reachable s ->
  is_admin s userId = false ->
  (forall p, in_effective s docId userId p ->
             granteeId p = gId /\ granteeType p = gType) ->
  let granted := snd (grantPermission uuid now now' docId gId gType lvl by_ s) in
  let revoked := snd (revokePermission docId gId gType granted) in
  checkPermission revoked docId userId requiredLevel = false.
Proof.
  intros s uuid now now' docId gId gType lvl by_ userId requiredLevel
    Hr Ha Honly granted revoked.
  assert (Hu : unique_grants granted).
  { apply (unique_grants_exec
             (GrantPermission uuid now now' docId gId gType lvl by_)).
    now apply reachable_invariants. }
  destruct (grant_frame uuid now now' docId gId gType lvl by_ s) as [Hgu Hgg].
  destruct (revoke_frame docId gId gType granted) as [Hru Hrg].
  fold granted in Hgu, Hgg. fold revoked in Hru, Hrg.
  apply checkPermission_no_grant.
  - rewrite (is_admin_users s revoked); [assumption|congruence].
  - intros p (Hin & Hd & Hp).
    unfold revoked in Hin. rewrite revoke_permissions in Hin.
    pose proof (remove_first_same_grant _ _ _ _ Hu p Hin) as Hnot.
    apply remove_first_In in Hin.
    apply grant_permissions_In in Hin as [Hin|Hin]; [|congruence].
    assert (He : in_effective s docId userId p).
    { split; [assumption|]. split; [assumption|].
      unfold member_of in *. rewrite Hrg, Hgg in Hp. exact Hp. }
    destruct (Honly p He) as [Hg Ht].
    assert (same_grant docId gId gType p = true)
      by (apply same_grant_key; unfold grant_key; congruence).
    congruence.
Qed.

Lemma revoke_after_grant_removes_access_witness :
  reachable scenario /\
  is_admin scenario "u-alice" = false /\
  checkPermission scenario "doc1" "u-alice" view = true /\
  checkPermission
    (snd (revokePermission "doc1" "g-eng" grantee_group
            (snd (grantPermission "p-2" 20 20 "doc1" "g-eng" grantee_group admin
                    "u-alice" scenario))))
    "doc1" "u-alice" view = false.
Proof.
  split; [exact reachable_scenario|].
  split; [reflexivity|]. split; [reflexivity|].
  apply (revoke_after_grant_removes_access scenario "p-2" 20%Z 20%Z "doc1" "g-eng"
           grantee_group admin "u-alice" "u-alice" view reachable_scenario eq_refl).
  intros p (Hin & _ & _).
  destruct Hin as [<-|[]]. split; reflexivity.
Defined.

(** ** Creating principals *)

Lemma find_exists {A} (f : A -> bool) (l : list A) a :
  In a l -> f a = true -> exists b, find f l = Some b.
Proof.
  intros Hin Hf. destruct (find f l) as [b|] eqn:E; [eauto|].
  rewrite (find_none _ _ E a Hin) in Hf. discriminate.
Qed.

Lemma createUser_stores_normalized : forall uuid name email role s u,
  fst (createUser uuid name email role s) = Ok u ->
  u = mkUser uuid (trim name) (trim (toLowerCase email)) role /\
  users (snd (createUser uuid name email role s)) = users s ++ [u].
Proof.
  intros uuid name email role s u. open_call; cbn; try discriminate.
  intros [= <-]. auto.
Qed.

(** C5, as the code has it: in a reachable state, [createUser] with a name
    that is not blank and an email whose lower-case form is the lower-case
    form of a stored user's email, the two compared as they are given and
    not trimmed, fails with the duplicate-email error; with a blank name or
    a blank email it fails with the validation error instead, the
    validation coming first.  [createGroup] with a name whose lower-case
    form is the lower-case form of a stored group's name, compared as
    given, fails with the duplicate-name error, and with a blank name it
    fails with the validation error.  Each of these failures returns the
    storage as it was. *)
Theorem create_duplicate_fails : forall s,
  reachable s ->
  (forall uuid name email role u,
     blank name = false ->
     In u (users s) ->
     toLowerCase (u_email u) = toLowerCase email ->
     createUser uuid name email role s = (Err duplicate_email, s)) /\
  (forall uuid name email role,
     blank name = true \/ blank email = true ->
     createUser uuid name email role s
     = (Err (mkError VALIDATION_ERROR "Name and email are required"), s)) /\
  (forall uuid name description g,
     In g (groups s) ->
     toLowerCase (g_name g) = toLowerCase name ->
     createGroup uuid name description s = (Err duplicate_group_name, s)) /\
  (forall uuid name description,
     blank name = true ->
     createGroup uuid name description s
     = (Err (mkError VALIDATION_ERROR "Group name is required"), s)).
Proof.
  intros s Hr. destruct (reachable_invariants s Hr) as (_ & _ & Hu & Hg).
  split; [|split; [|split]].
  - intros uuid name email role u Hname Hin Heq.
    assert (Hemail : blank email = false).
    { rewrite <- blank_toLowerCase, <- Heq, blank_toLowerCase. auto. }
    unfold createUser. rewrite !falsy_trim, Hname, Hemail. cbn [orb].
    destruct (find_exists (fun u => toLowerCase (u_email u) =? toLowerCase email)
                (users s) u Hin) as [b ->]; [|reflexivity].
    rewrite Heq. apply String.eqb_refl.
  - intros uuid name email role Hblank.
    unfold createUser. rewrite !falsy_trim.
    destruct Hblank as [-> | ->]; [reflexivity|].
    now rewrite orb_true_r.
  - intros uuid name description g Hin Heq.
    assert (Hname : blank name = false).
    { rewrite <- blank_toLowerCase, <- Heq, blank_toLowerCase. auto. }
    unfold createGroup. rewrite falsy_trim, Hname.
    destruct (find_exists (fun g => toLowerCase (g_name g) =? toLowerCase name)
                (groups s) g Hin) as [b ->]; [|reflexivity].
    rewrite Heq. apply String.eqb_refl.
  - intros uuid name description Hblank.
    unfold createGroup. now rewrite falsy_trim, Hblank.
Qed.

Lemma create_duplicate_fails_witness :
  reachable scenario /\
  createUser "u-2" "Alicia" "ALICE@X.COM" role_user scenario
  = (Err duplicate_email, scenario) /\
  createUser "u-2" "   " "ALICE@X.COM" role_user scenario
  = (Err (mkError VALIDATION_ERROR "Name and email are required"), scenario) /\
  createGroup "g-2" "ENG" None scenario = (Err duplicate_group_name, scenario) /\
  createGroup "g-2" " " None scenario
  = (Err (mkError VALIDATION_ERROR "Group name is required"), scenario).
Proof.
  split; [exact reachable_scenario|].
  destruct (create_duplicate_fails scenario reachable_scenario)
    as (Hu & Hbu & Hg & Hbg).
  split; [|split; [|split]].
  - apply (Hu "u-2" "Alicia" "ALICE@X.COM" role_user
             (mkUser "u-alice" "Alice" "alice@x.com" role_user));
      [reflexivity|left; reflexivity|reflexivity].
  - apply (Hbu "u-2" "   " "ALICE@X.COM" role_user). left. reflexivity.
  - apply (Hg "g-2" "ENG" None (mkGroup "g-eng" "Eng" None ["u-alice"]));
      [left; reflexivity|reflexivity].
  - apply (Hbg "g-2" " " None). reflexivity.
Defined.

(** With a blank name the call is rejected as invalid before the emails are
    compared, although the email is the one a stored user has. *)
Lemma createUser_blank_name_is_validation_error :
  reachable scenario /\
  (exists u, In u (users scenario) /\
             toLowerCase (u_email u) = toLowerCase "alice@x.com") /\
  createUser "u-2" "" "alice@x.com" role_user scenario
  = (Err (mkError VALIDATION_ERROR "Name and email are required"), scenario) /\
  fst (createUser "u-2" "" "alice@x.com" role_user scenario) <> Err duplicate_email.
Proof.
  split; [exact reachable_scenario|].
  split; [exists (mkUser "u-alice" "Alice" "alice@x.com" role_user);
          split; [left|]; reflexivity|].
  split; [reflexivity|discriminate].
Qed.

(** C6, at an input where the code departs from it: the storage holds a
    user with the email alice@x.com; [createUser] is called with that email
    preceded by a space.  The normalized email, trimmed and in lower case,
    is the stored one, yet the comparison (lower case only, not trimmed)
    finds no match: the call succeeds and the storage then holds the same
    email twice. *)
Theorem createUser_untrimmed_comparison :
  let attempt := createUser "u-bob" "Bob" " alice@x.com" role_user scenario in
  reachable scenario /\
  trim (toLowerCase " alice@x.com") = "alice@x.com" /\
  map u_email (users scenario) = ["alice@x.com"] /\
  fst attempt = Ok (mkUser "u-bob" "Bob" "alice@x.com" role_user) /\
  map u_email (users (snd attempt)) = ["alice@x.com"; "alice@x.com"].
Proof.
  cbv zeta. split; [exact reachable_scenario|]. repeat split.
Qed.

(** ** Listing the principals *)

Lemma users_run : forall cs s, users (run cs s) = users s ++ users_created cs s.
Proof.
  unfold run. induction cs as [|c t IH]; intros s; simpl.
  - now rewrite app_nil_r.
  - now rewrite IH, users_exec, app_assoc.
Qed.

Lemma group_ids_run : forall cs s,
  map g_id (groups (run cs s))
  = map g_id (groups s) ++ map g_id (groups_created cs s).
Proof.
  unfold run. induction cs as [|c t IH]; intros s; simpl.
  - now rewrite app_nil_r.
  - now rewrite IH, groups_exec_ids, map_app, app_assoc.
Qed.

Lemma storage_calls : forall cs m, storage (calls cs m) = run cs (storage m).
Proof.
  unfold calls, run. induction cs as [|c t IH]; intros m; simpl; [reflexivity|].
  now rewrite IH.
Qed.

(** C10, as the code has it: [getAllUsers] and [getAllGroups] return the
    whole of the stored users and groups, to which calls of the module add
    the principals they create at the end, in call order; what they return is
    the storage's own array and no copy, so a [push] on the returned array
    adds the element to the storage that later calls read. *)
Theorem getAll_returns_the_stored_arrays : forall m,
  read_users m getAllUsers = users (storage m) /\
  read_groups m getAllGroups = groups (storage m) /\
  (forall cs,
     read_users (calls cs m) getAllUsers
     = read_users m getAllUsers ++ users_created cs (storage m) /\
     map g_id (read_groups (calls cs m) getAllGroups)
     = map g_id (read_groups m getAllGroups)
       ++ map g_id (groups_created cs (storage m))) /\
  (forall u,
     users (storage (push_user getAllUsers u m)) = users (storage m) ++ [u] /\
     read_users (push_user getAllUsers u m) getAllUsers
     = read_users m getAllUsers ++ [u]) /\
  (forall g,
     groups (storage (push_group getAllGroups g m)) = groups (storage m) ++ [g] /\
     read_groups (push_group getAllGroups g m) getAllGroups
     = read_groups m getAllGroups ++ [g]).
Proof.
  intros m. repeat split.
  - cbn. now rewrite storage_calls, users_run.
  - cbn. now rewrite storage_calls, group_ids_run.
Qed.

(** A caller pushes an administrator of its own onto the array
    [getAllUsers] returned: the stored users change, and so does the answer
    of a later [checkPermission]. *)
Lemma getAllUsers_is_not_a_copy :
  let m := mkMemory admin_only [] [] in
  let m' := push_user getAllUsers (mkUser "u-eve" "Eve" "eve@x.com" role_admin) m in
  users (storage m) = [mkUser "u-admin" "Admin" "admin@example.com" role_admin] /\
  users (storage m')
  = [mkUser "u-admin" "Admin" "admin@example.com" role_admin;
     mkUser "u-eve" "Eve" "eve@x.com" role_admin] /\
  users (storage m') <> users (storage m) /\
  checkPermission (storage m) "doc1" "u-eve" view = false /\
  checkPermission (storage m') "doc1" "u-eve" view = true.
Proof.
  cbv zeta. repeat split. discriminate.
Qed.


(** * Further properties of the permission module *)

(** ** Access decisions *)

Lemma checkPermission_of_effective : forall s docId userId requiredLevel p,
  in_effective s docId userId p ->
  (level_pos requiredLevel <= level_pos (level p))%nat ->
  checkPermission s docId userId requiredLevel = true.
Proof.
  intros s docId userId requiredLevel p He Hl. unfold checkPermission.
  destruct (is_admin s userId); [reflexivity|].
  apply documentPermissionsOf_effective in He.
  destruct (documentPermissionsOf s docId userId) as [|q t] eqn:E; [destruct He|].
  cbn [length Nat.eqb]. rewrite highestLevel_max_level, hasPermissionLevel_pos.
  apply Nat.leb_le. pose proof (max_level_upper _ _ He). lia.
Qed.

Lemma checkPermission_true_inv : forall s docId userId requiredLevel,
  checkPermission s docId userId requiredLevel = true ->
  is_admin s userId = true \/
  exists p, in_effective s docId userId p /\
            (level_pos requiredLevel <= level_pos (level p))%nat.
Proof.
  intros s docId userId requiredLevel H.
  destruct (is_admin s userId) eqn:Ha; [auto|right].
  revert H. unfold checkPermission. rewrite Ha.
  destruct (documentPermissionsOf s docId userId) as [|q t] eqn:E;
    [discriminate|].
  cbn [length Nat.eqb]. rewrite highestLevel_max_level, hasPermissionLevel_pos.
  intros H. apply Nat.leb_le in H.
  destruct (max_level_attained (q :: t)) as (p & Hp & Hlvl); [discriminate|].
  exists p. split; [|rewrite Hlvl; assumption].
  apply documentPermissionsOf_effective. now rewrite E.
Qed.

(** X1: [checkPermission] answers true exactly when the user is an
    administrator or some permission of the effective set (a direct grant, or
    a grant to a group the user is a member of) has a level at or above the
    required one.  The statement is about one state of the storage: it says
    which stored permissions decide the answer, not how a later call
    changes them. *)
Theorem checkPermission_iff_some_grant : forall s docId userId requiredLevel,
  checkPermission s docId userId requiredLevel = true <->
  is_admin s userId = true \/
  exists p, in_effective s docId userId p /\
            (level_pos requiredLevel <= level_pos (level p))%nat.
Proof.
  intros s docId userId requiredLevel. split.
  - apply checkPermission_true_inv.
  - intros [Ha|(p & He & Hl)].
    + unfold checkPermission. now rewrite Ha.
    + eapply checkPermission_of_effective; eassumption.
Qed.

(** X2: a user who passes the check at one level passes it at every lower
    level of the hierarchy. *)
Theorem checkPermission_downward_closed : forall s docId userId higher lower,
  checkPermission s docId userId higher = true ->
  (level_pos lower <= level_pos higher)%nat ->
  checkPermission s docId userId lower = true.
Proof.
  intros s docId userId higher lower H Hle.
  destruct (checkPermission_true_inv _ _ _ _ H) as [Ha|(p & He & Hl)].
  - unfold checkPermission. now rewrite Ha.
  - apply (checkPermission_of_effective _ _ _ _ p He). lia.
Qed.

Lemma checkPermission_downward_closed_witness :
  checkPermission scenario "doc1" "u-alice" download = true /\
  (level_pos edit <= level_pos download)%nat /\
  checkPermission scenario "doc1" "u-alice" edit = true.
Proof.
  assert (H : checkPermission scenario "doc1" "u-alice" download = true)
    by reflexivity.
  assert (Hle : (level_pos edit <= level_pos download)%nat) by (simpl; lia).
  split; [exact H|]. split; [exact Hle|].
  exact (checkPermission_downward_closed scenario "doc1" "u-alice" download edit
           H Hle).
Defined.

(** ** Granting *)

Lemma grant_result : forall uuid now now' docId gId gType lvl by_ s,
  grantee_known s gId gType ->
  exists p,
    fst (grantPermission uuid now now' docId gId gType lvl by_ s) = Ok p /\
    In p (permissions (snd (grantPermission uuid now now' docId gId gType lvl
                              by_ s))) /\
    grant_key p = (docId, gId, gType) /\ level p = lvl.
Proof.
  intros uuid now now' docId gId gType lvl by_ s Hk.
  pose proof (grantee_exists_validated s
                (mkPermission uuid docId gId gType lvl by_ now now') Hk)
    as [Hv1 Hv2].
  cbn [granteeType granteeId] in Hv1, Hv2.
  unfold grantPermission. rewrite Hv1, Hv2.
  destruct (find (same_grant docId gId gType) (permissions s)) as [q|] eqn:Hfind;
    cbn [fst snd permissions].
  - exists (regrant lvl now q). split; [reflexivity|].
    destruct (find_split _ _ _ Hfind) as (l1 & l2 & Hs & Hq & Hl1).
    split; [|split; [|reflexivity]].
    + rewrite Hs, (mutate_found_split _ _ _ _ _ Hq Hl1).
      apply in_or_app. right. now left.
    + rewrite regrant_key. now apply same_grant_key.
  - eexists. split; [reflexivity|]. split; [|split; reflexivity].
    apply in_or_app. right. now left.
Qed.

(** X3: when the grantee names a stored principal, [grantPermission]
    succeeds whoever the grantor is, and afterwards the grantee user, or
    every member of the grantee group, passes the check on that document at
    the granted level and at every level below it. *)
Theorem grant_gives_access :
  forall s uuid now now' docId gId gType lvl by_ userId requiredLevel,
  grantee_known s gId gType ->
  (gType = grantee_user /\ gId = userId) \/
  (gType = grantee_group /\ member_of s userId gId) ->
  (level_pos requiredLevel <= level_pos lvl)%nat ->
  (exists p, fst (grantPermission uuid now now' docId gId gType lvl by_ s) = Ok p) /\
  checkPermission (snd (grantPermission uuid now now' docId gId gType lvl by_ s))
    docId userId requiredLevel = true.
Proof.
  intros s uuid now now' docId gId gType lvl by_ userId requiredLevel Hk Hu Hl.
  destruct (grant_result uuid now now' docId gId gType lvl by_ s Hk)
    as (p & Hok & Hin & Hkey & Hlvl).
  split; [eauto|].
  apply (checkPermission_of_effective _ _ _ _ p); [|now rewrite Hlvl].
  injection Hkey as Hd Hg Ht.
  split; [assumption|]. split; [assumption|].
  destruct (grant_frame uuid now now' docId gId gType lvl by_ s) as [_ Hgg].
  unfold member_of. rewrite Hgg, Hg, Ht.
  destruct Hu as [[-> ->]|[-> Hm]]; auto.
Qed.

Lemma grant_gives_access_witness :
  grantee_known scenario "g-eng" grantee_group /\
  member_of scenario "u-alice" "g-eng" /\
  checkPermission scenario "doc1" "u-alice" admin = false /\
  checkPermission
    (snd (grantPermission "p-2" 20 20 "doc1" "g-eng" grantee_group admin
            "u-nobody" scenario))
    "doc1" "u-alice" admin = true.
Proof.
  assert (Hk : grantee_known scenario "g-eng" grantee_group)
    by (left; reflexivity).
  assert (Hm : member_of scenario "u-alice" "g-eng").
  { exists (mkGroup "g-eng" "Eng" None ["u-alice"]).
    split; [left; reflexivity|]. split; [reflexivity|left; reflexivity]. }
  split; [exact Hk|]. split; [exact Hm|]. split; [reflexivity|].
  apply (grant_gives_access scenario "p-2" 20%Z 20%Z "doc1" "g-eng" grantee_group
           admin "u-nobody" "u-alice" admin Hk (or_intror (conj eq_refl Hm))).
  simpl. lia.
Defined.

(** ** Other documents, other grants *)

Lemma filter_mutate_found {A} (P f : A -> bool) (g : A -> A) :
  (forall x, f x = true -> P x = false /\ P (g x) = false) ->
  forall l, filter P (mutate_found f g l) = filter P l.
Proof.
  intros H. induction l as [|x t IH]; simpl; [reflexivity|].
  destruct (f x) eqn:Hx; simpl.
  - destruct (H x Hx) as [-> ->]. reflexivity.
  - now rewrite IH.
Qed.

Lemma filter_remove_first {A} (P f : A -> bool) :
  (forall x, f x = true -> P x = false) ->
  forall l, filter P (remove_first f l) = filter P l.
Proof.
  intros H. induction l as [|x t IH]; simpl; [reflexivity|].
  destruct (f x) eqn:Hx; simpl.
  - now rewrite (H x Hx).
  - now rewrite IH.
Qed.

Lemma filter_filter_and {A} (P Q : A -> bool) : forall l,
  filter Q (filter P l) = filter (fun x => P x && Q x) l.
Proof.
  induction l as [|x t IH]; simpl; [reflexivity|].
  destruct (P x); simpl; [destruct (Q x)|]; now rewrite IH.
Qed.

Lemma documentPermissionsOf_filter : forall s docId userId,
  documentPermissionsOf s docId userId
  = filter (fun p =>
              ((granteeType_eqb (granteeType p) grantee_user
                && (granteeId p =? userId))
               || (granteeType_eqb (granteeType p) grantee_group
                   && includes
                        (map g_id
                           (filter (fun g => includes (g_members g) userId)
                              (groups s)))
                        (granteeId p)))
              && (documentId p =? docId))
      (permissions s).
Proof.
  intros. unfold documentPermissionsOf, getUserPermissions.
  apply filter_filter_and.
Qed.

Lemma checkPermission_same_permissions : forall s s' docId userId requiredLevel,
  users s' = users s -> groups s' = groups s ->
  documentPermissionsOf s' docId userId = documentPermissionsOf s docId userId ->
  checkPermission s' docId userId requiredLevel
  = checkPermission s docId userId requiredLevel.
Proof.
  intros s s' docId userId requiredLevel Hu Hg Hp. unfold checkPermission.
  now rewrite (is_admin_users s s' userId Hu), Hp.
Qed.

Lemma same_grant_other_document : forall docId gId gType docId' p,
  docId' <> docId -> same_grant docId gId gType p = true ->
  (documentId p =? docId') = false.
Proof.
  intros docId gId gType docId' p Hne H.
  apply same_grant_key in H. injection H as Hd _ _.
  apply String.eqb_neq. congruence.
Qed.

(** X4: granting or revoking on one document leaves the answers of
    [checkPermission] about every other document as they were. *)
Theorem grant_and_revoke_are_local :
  forall s uuid now now' docId gId gType lvl by_ docId' userId requiredLevel,
  docId' <> docId ->
  checkPermission (snd (grantPermission uuid now now' docId gId gType lvl by_ s))
    docId' userId requiredLevel
  = checkPermission s docId' userId requiredLevel /\
  checkPermission (snd (revokePermission docId gId gType s))
    docId' userId requiredLevel
  = checkPermission s docId' userId requiredLevel.
Proof.
  intros s uuid now now' docId gId gType lvl by_ docId' userId requiredLevel Hne.
  split.
  - destruct (grant_frame uuid now now' docId gId gType lvl by_ s) as [Hu Hg].
    apply checkPermission_same_permissions; try assumption.
    rewrite !documentPermissionsOf_filter, Hg.
    unfold grantPermission.
    repeat match goal with
           | |- context [if ?b then _ else _] => destruct b
           end; cbn [snd permissions]; try reflexivity.
    destruct (find (same_grant docId gId gType) (permissions s)) eqn:Hfind;
      cbn [snd permissions].
    + apply filter_mutate_found. intros x Hx.
      rewrite <- (regrant_same_grant docId gId gType lvl now x) in Hx.
      pose proof (same_grant_other_document _ _ _ _ _ Hne Hx) as E1.
      rewrite regrant_same_grant in Hx.
      pose proof (same_grant_other_document _ _ _ _ _ Hne Hx) as E2.
      cbn [documentId regrant] in *. rewrite E2. split; apply andb_false_r.
    + rewrite filter_app. cbn [filter documentId].
      apply String.eqb_neq in Hne. rewrite String.eqb_sym in Hne.
      rewrite Hne, andb_false_r. apply app_nil_r.
  - destruct (revoke_frame docId gId gType s) as [Hu Hg].
    apply checkPermission_same_permissions; try assumption.
    rewrite !documentPermissionsOf_filter, Hg, revoke_permissions.
    apply filter_remove_first. intros x Hx.
    rewrite (same_grant_other_document _ _ _ _ _ Hne Hx). apply andb_false_r.
Qed.

Lemma grant_and_revoke_are_local_witness :
  "doc2" <> "doc1" /\
  checkPermission
    (snd (revokePermission "doc2" "g-eng" grantee_group scenario))
    "doc1" "u-alice" download
  = checkPermission scenario "doc1" "u-alice" download.
Proof.
  assert (H : "doc1" <> "doc2") by discriminate.
  split; [discriminate|].
  apply (grant_and_revoke_are_local scenario "p-2" 0%Z 0%Z "doc2" "g-eng"
           grantee_group view "u-alice" "doc1" "u-alice" download H).
Defined.

(** ** Revoking, again *)

Lemma remove_first_unique_filter : forall docId gId gType l,
  NoDup (map grant_key l) ->
  remove_first (same_grant docId gId gType) l
  = filter (fun p => negb (same_grant docId gId gType p)) l.
Proof.
  induction l as [|x t IH]; simpl; intros H; [reflexivity|].
  inversion H as [|? ? Hx Ht]; subst.
  destruct (same_grant docId gId gType x) eqn:Ex; simpl.
  - symmetry. apply forallb_filter_id. apply forallb_forall. intros y Hy.
    destruct (same_grant docId gId gType y) eqn:Ey; [|reflexivity].
    exfalso. apply Hx. apply same_grant_key in Ex, Ey.
    rewrite Ex, <- Ey. now apply in_map.
  - now rewrite IH.
Qed.

(** X5: in a reachable state [revokePermission] removes the permissions
    that have the tuple and nothing else, keeping the others in order; a
    second revoke of the same tuple then finds nothing and returns the
    NOT_FOUND error. *)
Theorem revoke_removes_the_tuple : forall s docId gId gType,
  reachable s ->
  let revoked := snd (revokePermission docId gId gType s) in
  permissions revoked
  = filter (fun p => negb (same_grant docId gId gType p)) (permissions s) /\
  (forall p, In p (permissions revoked) -> grant_key p <> (docId, gId, gType)) /\
  revokePermission docId gId gType revoked
  = (Err (mkError NOT_FOUND "Permission not found"), revoked).
Proof.
  intros s docId gId gType Hr revoked.
  destruct (reachable_invariants s Hr) as (Hu & _ & _).
  assert (E : permissions revoked
              = filter (fun p => negb (same_grant docId gId gType p))
                  (permissions s)).
  { unfold revoked. rewrite revoke_permissions.
    now apply remove_first_unique_filter. }
  assert (Hnone : forall p, In p (permissions revoked) ->
                            same_grant docId gId gType p = false).
  { intros p Hp. rewrite E in Hp. apply filter_In in Hp as [_ Hp].
    now apply negb_true_iff. }
  split; [assumption|]. split.
  - now apply no_grant_on_tuple.
  - apply findIndex_none_forall in Hnone.
    unfold revokePermission. now rewrite Hnone.
Qed.

Lemma revoke_removes_the_tuple_witness :
  reachable scenario /\
  permissions (snd (revokePermission "doc1" "g-eng" grantee_group scenario)) = [] /\
  revokePermission "doc1" "g-eng" grantee_group
    (snd (revokePermission "doc1" "g-eng" grantee_group scenario))
  = (Err (mkError NOT_FOUND "Permission not found"),
     snd (revokePermission "doc1" "g-eng" grantee_group scenario)).
Proof.
  split; [exact reachable_scenario|].
  destruct (revoke_removes_the_tuple scenario "doc1" "g-eng" grantee_group
              reachable_scenario) as (H1 & _ & H3).
  split; [exact H1|exact H3].
Defined.

(** ** Principals stay *)

Lemma find_app_found {A} (f : A -> bool) (l l' : list A) :
  (exists x, In x l /\ f x = true) -> find f (l ++ l') = find f l.
Proof.
  induction l as [|y t IH]; simpl; intros (x & Hin & Hx); [destruct Hin|].
  destruct (f y) eqn:Hy; [reflexivity|].
  apply IH. destruct Hin as [->|Hin]; [congruence|eauto].
Qed.

(** X6: no call removes or rewrites a stored user, and for a stored user id
    the administrator status is the same before and after any call: the
    module offers no way to promote or demote a user. *)
Theorem admin_status_is_stable : forall c s userId,
  In userId (map u_id (users s)) ->
  (exists added, users (exec c s) = users s ++ added) /\
  is_admin (exec c s) userId = is_admin s userId.
Proof.
  intros c s userId Hin. split; [rewrite users_exec; eauto|].
  unfold is_admin. rewrite users_exec, find_app_found; [reflexivity|].
  apply in_map_iff in Hin as (u & Hid & Hin).
  exists u. split; [assumption|]. rewrite Hid. apply String.eqb_refl.
Qed.

Lemma admin_status_is_stable_witness :
  In "u-alice" (map u_id (users scenario)) /\
  is_admin
    (exec (CreateUser "u-alice" "Alice" "alice2@x.com" role_admin) scenario)
    "u-alice"
  = false.
Proof.
  assert (H : In "u-alice" (map u_id (users scenario))) by (left; reflexivity).
  split; [exact H|].
  apply (admin_status_is_stable
           (CreateUser "u-alice" "Alice" "alice2@x.com" role_admin)
           scenario "u-alice" H).
Defined.

Lemma list_eq_dec_nil {A} (l : list A) : l = [] \/ l <> [].
Proof. destruct l; [left; reflexivity|right; discriminate]. Qed.

(** X7: [initializePermissions] creates the administrator
    admin@example.com in an empty storage and does nothing to a storage
    that has a user; so the storage has a user afterwards and a second
    initialization changes nothing. *)
Theorem initializePermissions_idempotent : forall s uuid uuid',
  (users s = [] ->
   initializePermissions uuid s
   = mkState [mkUser uuid "Admin" "admin@example.com" role_admin]
       (groups s) (permissions s)) /\
  (users s <> [] -> initializePermissions uuid s = s) /\
  users (initializePermissions uuid s) <> [] /\
  initializePermissions uuid' (initializePermissions uuid s)
  = initializePermissions uuid s.
Proof.
  intros s uuid uuid'.
  assert (H1 : users s = [] ->
               initializePermissions uuid s
               = mkState [mkUser uuid "Admin" "admin@example.com" role_admin]
                   (groups s) (permissions s)).
  { intros E. unfold initializePermissions, createUser. rewrite E. reflexivity. }
  assert (H2 : forall t u, users t <> [] -> initializePermissions u t = t).
  { intros t u Hne. unfold initializePermissions.
    destruct (users t); [congruence|reflexivity]. }
  assert (H3 : users (initializePermissions uuid s) <> []).
  { destruct (list_eq_dec_nil (users s)) as [E|E].
    - rewrite (H1 E). discriminate.
    - now rewrite H2. }
  repeat split; auto.
Qed.

(** ** The access list, again *)

Lemma filter_complement_length {A} (f g : A -> bool) :
  (forall x, g x = negb (f x)) ->
  forall l, length (filter f l) + length (filter g l) = length l.
Proof.
  intros H. induction l as [|x t IH]; simpl; [reflexivity|].
  rewrite H. destruct (f x); simpl; lia.
Qed.

(** X8: the access list of a document shows every stored permission on the
    document exactly once: the user entries carry the permissions granted to
    users and the group entries those granted to groups, each in storage
    order, and together they are as many as the permissions on the
    document. *)
Theorem access_list_is_a_partition : forall s docId,
  map snd (al_users (getDocumentAccessList s docId))
  = filter (fun p => granteeType_eqb (granteeType p) grantee_user)
      (getDocumentPermissions s docId) /\
  map snd (al_groups (getDocumentAccessList s docId))
  = filter (fun p => granteeType_eqb (granteeType p) grantee_group)
      (getDocumentPermissions s docId) /\
  length (al_users (getDocumentAccessList s docId))
  + length (al_groups (getDocumentAccessList s docId))
  = length (getDocumentPermissions s docId) /\
  (forall p, In p (permissions s) /\ documentId p = docId <->
             In p (map snd (al_users (getDocumentAccessList s docId))) \/
             In p (map snd (al_groups (getDocumentAccessList s docId)))).
Proof.
  intros s docId. unfold getDocumentAccessList. cbn [al_users al_groups].
  rewrite !map_map. cbn [snd]. rewrite !map_id, !length_map.
  split; [reflexivity|]. split; [reflexivity|]. split.
  - apply filter_complement_length. intros p. now destruct (granteeType p).
  - intros p. unfold getDocumentPermissions.
    rewrite !filter_In, !granteeType_eqb_eq, String.eqb_eq.
    destruct (granteeType p); intuition congruence.
Qed.

(** ** Memberships *)

Lemma findIndex_nth {A} (f : A -> bool) : forall l,
  findIndex f l <> (-1)%Z ->
  exists x, nth_error l (Z.to_nat (findIndex f l)) = Some x /\ f x = true /\
            find f l = Some x.
Proof.
  induction l as [|y t IH]; simpl; intros H; [congruence|].
  destruct (f y) eqn:Hy; [exists y; auto|].
  pose proof (findIndex_lower f t).
  destruct (Z.ltb_spec (findIndex f t) 0); [congruence|].
  replace (Z.to_nat (findIndex f t + 1)) with (S (Z.to_nat (findIndex f t))) by lia.
  apply IH. lia.
Qed.

Lemma mutate_at_In {A} (h : A -> A) : forall i l x,
  In x (mutate_at i h l) ->
  In x l \/ exists y, nth_error l i = Some y /\ x = h y.
Proof.
  intros i l. revert i.
  induction l as [|y t IH]; intros [|i] x; simpl; try tauto.
  - intros [<-|H]; [right; eauto|auto].
  - intros [<-|H]; [auto|]. destruct (IH i x H) as [?|?]; auto.
Qed.

Lemma mutate_at_nth {A} (h : A -> A) : forall i l y,
  nth_error l i = Some y -> nth_error (mutate_at i h l) i = Some (h y).
Proof.
  intros i l. revert i.
  induction l as [|z t IH]; intros [|i] y; simpl; try discriminate.
  - now intros [= ->].
  - apply IH.
Qed.

Lemma mutate_at_kept {A} (h : A -> A) : forall i l y,
  In y l -> In y (mutate_at i h l) \/ In (h y) (mutate_at i h l).
Proof.
  intros i l. revert i.
  induction l as [|z t IH]; intros [|i] y; simpl; try tauto.
  - intros [->|H]; auto.
  - intros [->|H]; [auto|]. destruct (IH i y H); auto.
Qed.

Lemma findIndex_mutate_at {A} (f : A -> bool) (h : A -> A) :
  (forall x, f (h x) = f x) ->
  forall i l, findIndex f (mutate_at i h l) = findIndex f l.
Proof.
  intros H i l. revert i.
  induction l as [|z t IH]; intros [|i]; simpl; try reflexivity.
  - now rewrite H.
  - now rewrite IH.
Qed.

Lemma mutate_at_twice {A} (h k : A -> A) : forall i l,
  mutate_at i h (mutate_at i k l) = mutate_at i (fun x => h (k x)) l.
Proof.
  intros i l. revert i.
  induction l as [|z t IH]; intros [|i]; simpl; try reflexivity.
  now rewrite IH.
Qed.

Lemma mutate_at_fixed {A} (h : A -> A) : forall i l y,
  nth_error l i = Some y -> h y = y -> mutate_at i h l = l.
Proof.
  intros i l. revert i.
  induction l as [|z t IH]; intros [|i] y; simpl; try discriminate.
  - intros [= ->] ->. reflexivity.
  - intros Hn Hy. f_equal. eapply IH; eassumption.
Qed.

Lemma remove_first_member_In : forall userId l x,
  In x (remove_first (fun y => y =? userId) l) -> In x l.
Proof. intros userId. apply remove_first_In. Qed.

Lemma remove_first_member_NoDup : forall userId l,
  NoDup l -> NoDup (remove_first (fun y => y =? userId) l) /\
             ~ In userId (remove_first (fun y => y =? userId) l).
Proof.
  intros userId. induction l as [|x t IH]; simpl; intros H; [split; auto|].
  inversion H as [|? ? Hx Ht]; subst.
  destruct (String.eqb_spec x userId) as [->|Hne]; [auto|].
  destruct (IH Ht) as [Hn Hnot]. split.
  - constructor; [|assumption]. intros Hin. apply Hx.
    eapply remove_first_In; eassumption.
  - simpl. intros [?|?]; [congruence|contradiction].
Qed.

Lemma members_valid_exec : forall c s, members_valid s -> members_valid (exec c s).
Proof.
  intros c s H.
  assert (Hgrow : forall g, (NoDup (g_members g) /\
                   forall m, In m (g_members g) -> In m (map u_id (users s))) ->
                  NoDup (g_members g) /\
                  forall m, In m (g_members g) -> In m (map u_id (users (exec c s)))).
  { intros g [Hn Hm]. split; [assumption|]. intros m Hin.
    apply user_ids_exec. auto. }
  intros g Hg. apply Hgrow. clear Hgrow. revert g Hg.
  destruct c; cbn [exec]; open_call; auto.
  - intros grp Hg. apply in_app_or in Hg as [Hg|[<-|[]]]; [auto|].
    split; [constructor|intros m []].
  - intros grp Hg. apply mutate_at_In in Hg as [Hg|(y & Hy & ->)]; [auto|].
    match goal with E : nth_error _ _ = Some _ |- _ =>
      rewrite E in Hy; injection Hy as <- end.
    match goal with E : nth_error _ _ = Some ?g0 |- _ =>
      apply nth_error_In in E; destruct (H g0 E) as [Hn Hm] end.
    cbn [with_members g_members]. split.
    + apply NoDup_snoc; [assumption|].
      intros Hin. apply includes_In in Hin. congruence.
    + intros m Hin. apply in_app_or in Hin as [Hin|[<-|[]]]; [auto|].
      apply find_id_In. eauto.
  - intros grp Hg. apply mutate_at_In in Hg as [Hg|(y & Hy & ->)]; [auto|].
    match goal with E : nth_error _ _ = Some _ |- _ =>
      rewrite E in Hy; injection Hy as <- end.
    match goal with E : nth_error _ _ = Some ?g0 |- _ =>
      apply nth_error_In in E; destruct (H g0 E) as [Hn Hm] end.
    cbn [with_members g_members]. unfold indexOf in *.
    rewrite splice1_findIndex
      by (match goal with E : (_ =? -1)%Z = false |- _ =>
            now apply Z.eqb_neq in E end).
    split.
    + now apply remove_first_member_NoDup.
    + intros m Hin. apply Hm. eapply remove_first_In; eassumption.
Qed.

(** X9: in a reachable state every member id of every group names a stored
    user, and no group lists a user twice. *)
Theorem reachable_members_valid : forall s, reachable s -> members_valid s.
Proof.
  induction 1 as [|s c _ IH].
  - intros g [].
  - now apply members_valid_exec.
Qed.

Lemma reachable_members_valid_witness :
  reachable scenario /\ members_valid scenario.
Proof.
  split; [exact reachable_scenario|].
  exact (reachable_members_valid scenario reachable_scenario).
Defined.

Lemma find_mutate_at {A} (f : A -> bool) (h : A -> A) : forall l g,
  (forall x, f (h x) = f x) ->
  find f l = Some g ->
  find f (mutate_at (Z.to_nat (findIndex f l)) h l) = Some (h g) /\
  nth_error l (Z.to_nat (findIndex f l)) = Some g.
Proof.
  intros l g Hf Hfind.
  assert (Hi : findIndex f l <> (-1)%Z).
  { intros E. apply findIndex_find_none in E. congruence. }
  destruct (findIndex_nth f l Hi) as (x & Hn & _ & Hx).
  assert (x = g) as -> by congruence.
  split; [|assumption].
  pose proof (findIndex_mutate_at f h Hf (Z.to_nat (findIndex f l)) l) as E.
  destruct (findIndex_nth f (mutate_at (Z.to_nat (findIndex f l)) h l))
    as (y & Hy & _ & Hfy); [congruence|].
  rewrite E, (mutate_at_nth h _ _ _ Hn) in Hy. congruence.
Qed.

Lemma mutate_at_agree {A} (h k : A -> A) : forall i l y,
  nth_error l i = Some y -> h y = k y -> mutate_at i h l = mutate_at i k l.
Proof.
  intros i l. revert i.
  induction l as [|z t IH]; intros [|i] y; simpl; try reflexivity.
  - intros [= ->] ->. reflexivity.
  - intros Hn Hy. f_equal. eapply IH; eassumption.
Qed.

Lemma addUserToGroup_cases : forall userId groupId s,
  addUserToGroup userId groupId s
  = match find (fun u => u_id u =? userId) (users s) with
    | None => (Err (mkError NOT_FOUND "User not found"), s)
    | Some _ =>
        match find (fun g => g_id g =? groupId) (groups s) with
        | None => (Err (mkError NOT_FOUND "Group not found"), s)
        | Some g =>
            if includes (g_members g) userId then
              (Err (mkError INVALID_OPERATION
                      "User is already a member of this group"), s)
            else
              (Ok true,
               mkState (users s)
                 (mutate_at
                    (Z.to_nat (findIndex (fun g => g_id g =? groupId) (groups s)))
                    (with_members (fun m => m ++ [userId])) (groups s))
                 (permissions s))
        end
    end.
Proof.
  intros userId groupId s. unfold addUserToGroup.
  destruct (find (fun u => u_id u =? userId) (users s)); [|reflexivity].
  destruct (Z.eqb_spec (findIndex (fun g => g_id g =? groupId) (groups s)) (-1))
    as [E|E].
  - apply findIndex_find_none in E. now rewrite E.
  - destruct (findIndex_nth _ _ E) as (g & Hn & _ & Hf). now rewrite Hn, Hf.
Qed.

Lemma removeUserFromGroup_cases : forall userId groupId s,
  removeUserFromGroup userId groupId s
  = match find (fun g => g_id g =? groupId) (groups s) with
    | None => (Err (mkError NOT_FOUND "Group not found"), s)
    | Some g =>
        if (indexOf (g_members g) userId =? -1)%Z then
          (Err (mkError NOT_FOUND "User is not a member of this group"), s)
        else
          (Ok true,
           mkState (users s)
             (mutate_at
                (Z.to_nat (findIndex (fun g => g_id g =? groupId) (groups s)))
                (with_members (remove_first (fun y => y =? userId))) (groups s))
             (permissions s))
    end.
Proof.
  intros userId groupId s. unfold removeUserFromGroup.
  destruct (Z.eqb_spec (findIndex (fun g => g_id g =? groupId) (groups s)) (-1))
    as [E|E].
  - apply findIndex_find_none in E. now rewrite E.
  - destruct (findIndex_nth _ _ E) as (g & Hn & _ & Hf). rewrite Hn, Hf.
    destruct (Z.eqb_spec (indexOf (g_members g) userId) (-1)) as [E'|E'];
      [reflexivity|].
    do 2 f_equal. apply (mutate_at_agree _ _ _ _ g Hn).
    unfold with_members. f_equal. now apply splice1_findIndex.
Qed.

Lemma state_eta : forall s, mkState (users s) (groups s) (permissions s) = s.
Proof. now intros []. Qed.

Lemma remove_first_snoc {A} (f : A -> bool) : forall l x,
  (forall y, In y l -> f y = false) -> f x = true ->
  remove_first f (l ++ [x]) = l.
Proof.
  induction l as [|z t IH]; simpl; intros x H Hx.
  - now rewrite Hx.
  - rewrite (H z (or_introl eq_refl)). f_equal. auto.
Qed.

Lemma remove_first_other {A} (f : A -> bool) : forall l x,
  f x = false -> In x l -> In x (remove_first f l).
Proof.
  induction l as [|z t IH]; simpl; intros x Hx Hin; [assumption|].
  destruct Hin as [->|Hin].
  - rewrite Hx. now left.
  - destruct (f z); [assumption|]. right. auto.
Qed.

Lemma group_id_with_members : forall groupId h (x : Group),
  (g_id (with_members h x) =? groupId) = (g_id x =? groupId).
Proof. reflexivity. Qed.

(** X10: [addUserToGroup] succeeds exactly when the user id is stored, a
    group has the group id, and the first such group does not list the user
    yet.  On success the user is a member of a group with that id, every
    earlier membership is kept, and users and permissions are untouched; on
    an error the storage is returned as it was. *)
Theorem addUserToGroup_outcome : forall s userId groupId,
  let r := addUserToGroup userId groupId s in
  (fst r = Ok true <->
   In userId (map u_id (users s)) /\
   exists g, find (fun g => g_id g =? groupId) (groups s) = Some g /\
             ~ In userId (g_members g)) /\
  (forall e, fst r = Err e -> snd r = s) /\
  (fst r = Ok true ->
   users (snd r) = users s /\ permissions (snd r) = permissions s /\
   member_of (snd r) userId groupId /\
   forall u gid, member_of s u gid -> member_of (snd r) u gid).
Proof.
  intros s userId groupId r. subst r. rewrite addUserToGroup_cases.
  destruct (find (fun u => u_id u =? userId) (users s)) as [u|] eqn:Hu.
  2:{ cbn. repeat split; try discriminate.
      intros [Hin _]. apply find_id_In in Hin as [a Ha]. congruence. }
  destruct (find (fun g => g_id g =? groupId) (groups s)) as [g|] eqn:Hg.
  2:{ cbn. repeat split; try discriminate. intros (_ & g & Hg' & _). discriminate. }
  destruct (includes (g_members g) userId) eqn:Hinc.
  { cbn. repeat split; try discriminate.
    intros (_ & g' & [= <-] & Hnot). apply includes_In in Hinc. contradiction. }
  cbn [fst snd users permissions groups].
  destruct (find_mutate_at (fun g => g_id g =? groupId)
              (with_members (fun m => m ++ [userId])) (groups s) g
              (group_id_with_members groupId _) Hg) as [Hfind' Hnth].
  split; [|split; [discriminate|]].
  - split; [|reflexivity]. intros _. split; [apply find_id_In; eauto|].
    exists g. split; [reflexivity|]. intros Hin.
    apply includes_In in Hin. congruence.
  - intros _. split; [reflexivity|]. split; [reflexivity|]. split.
    + apply find_some in Hfind' as [Hin Hid]. apply String.eqb_eq in Hid.
      exists (with_members (fun m => m ++ [userId]) g).
      split; [assumption|]. split; [assumption|].
      cbn. apply in_or_app. right. now left.
    + intros u0 gid (g0 & Hin & Hid & Hm).
      destruct (mutate_at_kept (with_members (fun m => m ++ [userId]))
                  (Z.to_nat (findIndex (fun g => g_id g =? groupId) (groups s)))
                  (groups s) g0 Hin) as [H|H].
      * exists g0. auto.
      * exists (with_members (fun m => m ++ [userId]) g0).
        split; [assumption|]. split; [assumption|].
        cbn. apply in_or_app. now left.
Qed.

(** X11: removing a user from a group right after adding the user to it
    succeeds and gives back the storage as it was before the addition. *)
Theorem add_then_remove_member : forall s userId groupId added,
  addUserToGroup userId groupId s = (Ok true, added) ->
  removeUserFromGroup userId groupId added = (Ok true, s).
Proof.
  intros s userId groupId added. rewrite addUserToGroup_cases.
  destruct (find (fun u => u_id u =? userId) (users s)); [|discriminate].
  destruct (find (fun g => g_id g =? groupId) (groups s)) as [g|] eqn:Hg;
    [|discriminate].
  destruct (includes (g_members g) userId) eqn:Hinc; [discriminate|].
  intros [= <-]. rewrite removeUserFromGroup_cases.
  cbn [users groups permissions].
  destruct (find_mutate_at (fun g => g_id g =? groupId)
              (with_members (fun m => m ++ [userId])) (groups s) g
              (group_id_with_members groupId _) Hg) as [Hfind' Hnth].
  rewrite Hfind'. cbn [with_members g_members].
  assert (Hnot : forall y, In y (g_members g) -> (y =? userId) = false).
  { intros y Hy. apply String.eqb_neq. intros ->.
    apply includes_In in Hy. congruence. }
  destruct (Z.eqb_spec (indexOf (g_members g ++ [userId]) userId) (-1)) as [E|E].
  { apply findIndex_none_forall with (x := userId) in E.
    - now rewrite String.eqb_refl in E.
    - apply in_or_app. right. now left. }
  f_equal. rewrite (findIndex_mutate_at _ _ (group_id_with_members groupId _)).
  rewrite mutate_at_twice, (mutate_at_fixed _ _ _ g Hnth); [apply state_eta|].
  unfold with_members. cbn [g_id g_name g_description g_members].
  rewrite (remove_first_snoc _ _ _ Hnot (String.eqb_refl userId)).
  now destruct g.
Qed.

Lemma add_then_remove_member_witness :
  let s := snd (createUser "u-bob" "Bob" "bob@x.com" role_user scenario) in
  let added := snd (addUserToGroup "u-bob" "g-eng" s) in
  addUserToGroup "u-bob" "g-eng" s = (Ok true, added) /\
  removeUserFromGroup "u-bob" "g-eng" added = (Ok true, s).
Proof.
  cbv zeta.
  assert (H : addUserToGroup "u-bob" "g-eng"
                (snd (createUser "u-bob" "Bob" "bob@x.com" role_user scenario))
              = (Ok true,
                 snd (addUserToGroup "u-bob" "g-eng"
                        (snd (createUser "u-bob" "Bob" "bob@x.com" role_user
                                scenario)))))
    by reflexivity.
  split; [exact H|].
  exact (add_then_remove_member _ "u-bob" "g-eng" _ H).
Defined.

(** X12: in a reachable state a successful [removeUserFromGroup] leaves the
    first group with the id without the user and with all its other members,
    touches neither users nor permissions, and a second removal returns the
    NOT_FOUND error; an error returns the storage as it was. *)
Theorem removeUserFromGroup_outcome : forall s userId groupId,
  reachable s ->
  let r := removeUserFromGroup userId groupId s in
  (forall e, fst r = Err e -> snd r = s) /\
  (fst r = Ok true ->
   users (snd r) = users s /\ permissions (snd r) = permissions s /\
   (exists g g',
      find (fun g => g_id g =? groupId) (groups s) = Some g /\
      find (fun g => g_id g =? groupId) (groups (snd r)) = Some g' /\
      In userId (g_members g) /\ ~ In userId (g_members g') /\
      forall m, m <> userId -> (In m (g_members g') <-> In m (g_members g))) /\
   removeUserFromGroup userId groupId (snd r)
   = (Err (mkError NOT_FOUND "User is not a member of this group"), snd r)).
Proof.
  intros s userId groupId Hr r. subst r.
  assert (Hv : members_valid s).
  { clear userId groupId. induction Hr as [|s c _ IH];
      [intros g []|now apply members_valid_exec]. }
  rewrite removeUserFromGroup_cases.
  destruct (find (fun g => g_id g =? groupId) (groups s)) as [g|] eqn:Hg.
  2:{ cbn. split; [reflexivity|discriminate]. }
  destruct (Z.eqb_spec (indexOf (g_members g) userId) (-1)) as [E|E].
  { cbn. split; [reflexivity|discriminate]. }
  cbn [fst snd users permissions groups]. split; [discriminate|]. intros _.
  destruct (find_mutate_at (fun g => g_id g =? groupId)
              (with_members (remove_first (fun y => y =? userId))) (groups s) g
              (group_id_with_members groupId _) Hg) as [Hfind' Hnth].
  destruct (Hv g (proj1 (find_some _ _ Hg))) as [Hnd _].
  destruct (remove_first_member_NoDup userId _ Hnd) as [_ Hgone].
  split; [reflexivity|]. split; [reflexivity|]. split.
  - exists g, (with_members (remove_first (fun y => y =? userId)) g).
    split; [reflexivity|]. split; [assumption|]. split; [|split; [assumption|]].
    + destruct (findIndex_nth _ _ E) as (x & _ & Hx & Hf).
      apply find_some in Hf as [Hin _]. apply String.eqb_eq in Hx. now subst.
    + intros m Hm. cbn. split; [apply remove_first_In|].
      apply remove_first_other. now apply String.eqb_neq.
  - rewrite removeUserFromGroup_cases. cbn [groups]. rewrite Hfind'.
    assert (E' : indexOf (g_members (with_members
                   (remove_first (fun y => y =? userId)) g)) userId = (-1)%Z).
    { apply findIndex_none_forall. intros y Hy. apply String.eqb_neq.
      intros ->. contradiction. }
    now rewrite E'.
Qed.

Lemma removeUserFromGroup_outcome_witness :
  reachable scenario /\
  fst (removeUserFromGroup "u-alice" "g-eng" scenario) = Ok true /\
  removeUserFromGroup "u-alice" "g-eng"
    (snd (removeUserFromGroup "u-alice" "g-eng" scenario))
  = (Err (mkError NOT_FOUND "User is not a member of this group"),
     snd (removeUserFromGroup "u-alice" "g-eng" scenario)).
Proof.
  split; [exact reachable_scenario|]. split; [reflexivity|].
  apply (removeUserFromGroup_outcome scenario "u-alice" "g-eng"
           reachable_scenario).
  reflexivity.
Defined.

(** ** Uniqueness of emails and group names *)

Lemma lowerChar_idempotent : forall c, lowerChar (lowerChar c) = lowerChar c.
Proof.
  intros [b0 b1 b2 b3 b4 b5 b6 b7].
  destruct b0, b1, b2, b3, b4, b5, b6, b7; reflexivity.
Qed.

Lemma toLowerCase_idempotent : forall s, toLowerCase (toLowerCase s) = toLowerCase s.
Proof.
  induction s as [|c t IH]; simpl; [reflexivity|].
  now rewrite lowerChar_idempotent, IH.
Qed.

Lemma trimStart_toLowerCase : forall s,
  trimStart (toLowerCase s) = toLowerCase (trimStart s).
Proof.
  induction s as [|c t IH]; simpl; [reflexivity|].
  rewrite isWhiteSpace_lowerChar. now destruct (isWhiteSpace c).
Qed.

Lemma trimEnd_toLowerCase : forall s,
  trimEnd (toLowerCase s) = toLowerCase (trimEnd s).
Proof.
  induction s as [|c t IH]; simpl; [reflexivity|].
  rewrite IH, isWhiteSpace_lowerChar.
  destruct (trimEnd t); simpl; [now destruct (isWhiteSpace c)|reflexivity].
Qed.

Lemma trim_toLowerCase : forall s, trim (toLowerCase s) = toLowerCase (trim s).
Proof.
  intros s. unfold trim. now rewrite trimStart_toLowerCase, trimEnd_toLowerCase.
Qed.

Lemma trimEnd_cons : forall c t,
  trimEnd (String c t)
  = match trimEnd t with
    | EmptyString => if isWhiteSpace c then EmptyString else String c EmptyString
    | t' => String c t'
    end.
Proof. reflexivity. Qed.

Lemma trimEnd_idempotent : forall s, trimEnd (trimEnd s) = trimEnd s.
Proof.
  induction s as [|c t IH]; simpl; [reflexivity|].
  destruct (trimEnd t) as [|c' t'] eqn:E.
  - destruct (isWhiteSpace c) eqn:Hc; simpl; [reflexivity|now rewrite Hc].
  - rewrite (trimEnd_cons c (String c' t')), IH. reflexivity.
Qed.

Lemma trim_idempotent : forall s, trim (trim s) = trim s.
Proof.
  intros s. unfold trim. destruct (blank s) eqn:Hb.
  - now rewrite (trimStart_blank _ Hb).
  - destruct (trimStart_not_blank _ Hb) as (c & t & -> & Hc).
    destruct (trimEnd_head c t Hc) as [t' E].
    rewrite E. cbn [trimStart]. rewrite Hc, <- E. apply trimEnd_idempotent.
Qed.

Lemma emails_unique_users : forall s s',
  users s' = users s -> emails_unique s -> emails_unique s'.
Proof. unfold emails_unique. now intros s s' ->. Qed.

Lemma createUser_emails_unique : forall uuid name email role s,
  trim email = email ->
  emails_unique s -> emails_unique (snd (createUser uuid name email role s)).
Proof.
  intros uuid name email role s Ht [Hn Hl]. unfold createUser.
  destruct (falsy (trim name) || falsy (trim email)); [split; assumption|].
  destruct (find _ (users s)) eqn:Hfind; [split; assumption|].
  cbn [snd]. unfold emails_unique. cbn [users].
  rewrite trim_toLowerCase, Ht. split.
  - rewrite map_app. apply NoDup_snoc; [assumption|]. cbn [map u_email].
    intros Hin. apply in_map_iff in Hin as (u & Hu & Hin).
    pose proof (find_none _ _ Hfind u Hin) as Hne. cbn in Hne.
    rewrite (Hl u Hin), Hu, String.eqb_refl in Hne. discriminate.
  - intros u Hin. apply in_app_or in Hin as [Hin|[<-|[]]]; [auto|].
    apply toLowerCase_idempotent.
Qed.

Lemma emails_unique_exec : forall c s,
  trimmed_input c -> emails_unique s -> emails_unique (exec c s).
Proof.
  intros c s Ht H.
  destruct c; cbn [exec];
    try (apply (emails_unique_users s); [|assumption];
         open_call; reflexivity).
  - now apply createUser_emails_unique.
  - unfold initializePermissions. destruct (length (users s) =? 0)%nat;
      [|assumption].
    now apply createUser_emails_unique.
Qed.

Lemma createGroup_names_unique : forall uuid name description s,
  trim name = name ->
  group_names_unique s ->
  group_names_unique (snd (createGroup uuid name description s)).
Proof.
  intros uuid name description s Ht Hn. unfold createGroup.
  destruct (falsy (trim name)); [assumption|].
  destruct (find _ (groups s)) eqn:Hfind; [assumption|].
  cbn [snd]. unfold group_names_unique. cbn [groups].
  rewrite map_app. apply NoDup_snoc; [assumption|]. cbn [map g_name].
  rewrite Ht. intros Hin. apply in_map_iff in Hin as (g & Hg & Hin).
  pose proof (find_none _ _ Hfind g Hin) as Hne. cbn in Hne.
  rewrite Hg, String.eqb_refl in Hne. discriminate.
Qed.

Lemma group_names_unique_exec : forall c s,
  trimmed_input c -> group_names_unique s -> group_names_unique (exec c s).
Proof.
  intros c s Ht H. unfold group_names_unique in *.
  destruct c; try (now apply createGroup_names_unique).
  all: rewrite <- map_map, groups_exec_names; cbn [created_group map];
    now rewrite app_nil_r, map_map.
Qed.

(** X13: when every [createUser] receives a trimmed email and every
    [createGroup] a trimmed name, as from a caller that passes [trim] of its
    input, no two stored users share an email and no two stored groups share
    a name, case ignored. *)
Theorem trimmed_input_keeps_names_unique : forall s,
  reachable_trimmed s ->
  emails_unique s /\ group_names_unique s /\
  (forall uuid name email role,
     trimmed_input (CreateUser uuid name (trim email) role)) /\
  (forall uuid name description,
     trimmed_input (CreateGroup uuid (trim name) description)).
Proof.
  intros s H.
  assert (Inv : emails_unique s /\ group_names_unique s).
  { induction H as [|s c _ [He Hg] Ht].
    - split; [split; [constructor|intros u []]|constructor].
    - split; [now apply emails_unique_exec|now apply group_names_unique_exec]. }
  destruct Inv as [He Hg]. repeat split; try assumption; try apply He.
  - intros. apply trim_idempotent.
  - intros. apply trim_idempotent.
Qed.

Lemma trimmed_input_keeps_names_unique_witness :
  reachable_trimmed scenario /\ emails_unique scenario /\
  group_names_unique scenario.
Proof.
  assert (H : reachable_trimmed scenario).
  { unfold scenario, run. cbn [fold_left].
    repeat (apply reach_trimmed_call; [|first [reflexivity|exact I]]).
    apply reach_trimmed_init. }
  split; [exact H|].
  destruct (trimmed_input_keeps_names_unique scenario H) as (He & Hg & _).
  split; [exact He|exact Hg].
Defined.

(** * Properties of the tag module *)

Ltac open_tag_call :=
  unfold Tags.createTag, Tags.updateTag, Tags.deleteTag, Tags.addTagToDocument,
    Tags.removeTagFromDocument;
  repeat match goal with
         | |- context [if ?b then _ else _] => destruct b eqn:?
         | |- context [match find ?f ?l with _ => _ end] => destruct (find f l) eqn:?
         | |- context [match nth_error ?l ?i with _ => _ end] =>
             destruct (nth_error l i) eqn:?
         end;
  cbn [fst snd Tags.tags Tags.documentTags].

Lemma mutate_at_map_at {A B} (k : A -> B) (h : A -> A) : forall i l y,
  nth_error l i = Some y -> k (h y) = k y -> map k (mutate_at i h l) = map k l.
Proof.
  intros i l. revert i.
  induction l as [|z t IH]; intros [|i] y; simpl; try reflexivity.
  - intros [= ->] ->. reflexivity.
  - intros Hn Hy. f_equal. eapply IH; eassumption.
Qed.

Lemma tag_ids_kept : forall c s x,
  In x (map Tags.tag_id (Tags.tags s)) ->
  (forall id, c = Tags.DeleteTag id -> x <> id) ->
  In x (map Tags.tag_id (Tags.tags (Tags.exec c s))).
Proof.
  intros c s x Hin Hc. destruct c; cbn [Tags.exec]; open_tag_call; auto.
  - rewrite map_app. apply in_or_app. auto.
  - erewrite mutate_at_map_at; [assumption|eassumption|reflexivity].
  - apply in_map_iff in Hin as (t & Ht & Hin). apply in_map_iff.
    exists t. split; [assumption|]. apply filter_In. split; [assumption|].
    apply negb_true_iff, String.eqb_neq. rewrite Ht. now apply Hc.
Qed.

Lemma on_document_eq : forall d t dt,
  Tags.on_document d t dt = true <-> dt = Tags.mkDocumentTag d t.
Proof.
  intros d t [d' t']. unfold Tags.on_document. cbn.
  rewrite andb_true_iff, !String.eqb_eq. split; [intros [-> ->]|intros [= -> ->]]; auto.
Qed.

Lemma associations_valid_exec : forall c s,
  Tags.associations_valid s -> Tags.associations_valid (Tags.exec c s).
Proof.
  intros c s [Href Hnd].
  assert (Hkeep : forall dt, In dt (Tags.documentTags s) ->
            (forall id, c = Tags.DeleteTag id -> Tags.dt_tagId dt <> id) ->
            In (Tags.dt_tagId dt) (map Tags.tag_id (Tags.tags (Tags.exec c s)))).
  { intros dt Hin Hc. apply tag_ids_kept; auto. }
  destruct c; cbn [Tags.exec] in *; split; revert Hkeep; open_tag_call;
    intros Hkeep; try assumption;
    try (intros dt Hin; apply Hkeep; [assumption|discriminate]).
  - intros dt Hin. apply filter_In in Hin as [Hin Hne].
    apply Hkeep; [assumption|]. intros ? [= <-].
    now apply negb_true_iff, String.eqb_neq in Hne.
  - now apply NoDup_filter.
  - intros dt Hin. apply in_app_or in Hin as [Hin|[<-|[]]].
    + apply Hkeep; [assumption|discriminate].
    + cbn. apply find_id_In. eauto.
  - apply NoDup_snoc; [assumption|]. intros Hin.
    match goal with E : find _ _ = None |- _ =>
      pose proof (find_none _ _ E _ Hin) as Hf end.
    rewrite (proj2 (on_document_eq _ _ _) eq_refl) in Hf. discriminate.
  - intros dt Hin. apply filter_In in Hin as [Hin _].
    apply Hkeep; [assumption|discriminate].
  - now apply NoDup_filter.
Qed.

(** X14: in every reachable state of the tag store each association of a
    document with a tag names a stored tag, and no association is recorded
    twice: [addTagToDocument] checks both, and [deleteTag] takes the
    associations of the tag away with it. *)
Theorem tag_associations_valid : forall s,
  Tags.reachable s -> Tags.associations_valid s.
Proof.
  induction 1 as [|s c _ IH].
  - split; [intros dt []|constructor].
  - now apply associations_valid_exec.
Qed.

Lemma reachable_tags_demo : Tags.reachable Tags.demo.
Proof. unfold Tags.demo. cbn [fold_left]. repeat constructor. Qed.

Lemma tag_associations_valid_witness :
  Tags.reachable Tags.demo /\ Tags.associations_valid Tags.demo.
Proof.
  split; [exact reachable_tags_demo|].
  exact (tag_associations_valid Tags.demo reachable_tags_demo).
Defined.

Lemma filter_filter_comm_out {A} (P Q : A -> bool) : forall l,
  (forall x, In x l -> Q x = true -> P x = true) ->
  filter Q (filter P l) = filter Q l.
Proof.
  induction l as [|x t IH]; simpl; intros H; [reflexivity|].
  destruct (P x) eqn:Hp; simpl.
  - destruct (Q x); rewrite IH; auto.
  - destruct (Q x) eqn:Hq.
    + rewrite (H x (or_introl eq_refl) Hq) in Hp. discriminate.
    + apply IH. auto.
Qed.

Lemma filter_nothing {A} (f : A -> bool) : forall l,
  (forall x, In x l -> f x = false) -> filter f l = [].
Proof.
  induction l as [|x t IH]; simpl; intros H; [reflexivity|].
  rewrite (H x (or_introl eq_refl)). auto.
Qed.

Lemma find_filter_other {A} (P Q : A -> bool) : forall l,
  (forall x, Q x = true -> P x = true) ->
  find Q (filter P l) = find Q l.
Proof.
  induction l as [|x t IH]; simpl; intros H; [reflexivity|].
  destruct (P x) eqn:Hp; simpl.
  - destruct (Q x); auto.
  - destruct (Q x) eqn:Hq; [|auto].
    rewrite (H x Hq) in Hp. discriminate.
Qed.

(** X15: [deleteTag] fails with NOT_FOUND, changing nothing, exactly when
    no tag has the id.  When it succeeds the id is gone ([getTag] answers
    NOT_FOUND) together with all its associations ([getDocumentsByTag]
    answers the empty list), while every other tag, and the documents of
    every other tag, are as before. *)
Theorem deleteTag_cascades : forall s id,
  let r := Tags.deleteTag id s in
  (~ In id (map Tags.tag_id (Tags.tags s)) <->
   r = (Tags.Err (Tags.mkTagError Tags.NOT_FOUND "Tag not found"), s)) /\
  (In id (map Tags.tag_id (Tags.tags s)) ->
   fst r = Tags.Ok true /\
   Tags.getTag id (snd r)
   = Tags.Err (Tags.mkTagError Tags.NOT_FOUND "Tag not found") /\
   Tags.getDocumentsByTag id (snd r) = [] /\
   forall id', id' <> id ->
     Tags.getTag id' (snd r) = Tags.getTag id' s /\
     Tags.getDocumentsByTag id' (snd r) = Tags.getDocumentsByTag id' s).
Proof.
  intros s id r. subst r. unfold Tags.deleteTag.
  destruct (Z.eqb_spec (findIndex (fun t => Tags.tag_id t =? id) (Tags.tags s)) (-1))
    as [E|E].
  - apply findIndex_find_none in E. split.
    + split; [reflexivity|]. intros _ Hin.
      apply find_id_In in Hin as [a Ha]. congruence.
    + intros Hin. apply find_id_In in Hin as [a Ha]. congruence.
  - assert (Hin : In id (map Tags.tag_id (Tags.tags s))).
    { destruct (findIndex_nth _ _ E) as (x & _ & _ & Hf).
      apply find_id_In. eauto. }
    split; [split; [contradiction|discriminate]|].
    intros _. cbn [fst snd]. split; [reflexivity|].
    unfold Tags.getTag, Tags.getDocumentsByTag. cbn [Tags.tags Tags.documentTags].
    split; [|split].
    + destruct (find _ (filter _ (Tags.tags s))) as [t|] eqn:Hf; [|reflexivity].
      apply find_some in Hf as [Hf Ht]. apply filter_In in Hf as [_ Hf].
      rewrite Ht in Hf. discriminate.
    + rewrite filter_filter_and.
      rewrite filter_nothing; [reflexivity|].
      intros dt _. now destruct (Tags.dt_tagId dt =? id).
    + intros id' Hne. split.
      * rewrite find_filter_other; [reflexivity|].
        intros t Ht. apply String.eqb_eq in Ht.
        apply negb_true_iff, String.eqb_neq. congruence.
      * f_equal. apply filter_filter_comm_out. intros dt _ Ht.
        apply String.eqb_eq in Ht.
        apply negb_true_iff, String.eqb_neq. congruence.
Qed.

Lemma remove_on_document_snoc : forall d t l,
  find (Tags.on_document d t) l = None ->
  filter (fun dt => negb (Tags.on_document d t dt)) (l ++ [Tags.mkDocumentTag d t])
  = l.
Proof.
  intros d t l H. rewrite filter_app. cbn [filter].
  rewrite (proj2 (on_document_eq d t _) eq_refl). cbn. rewrite app_nil_r.
  apply forallb_filter_id. apply forallb_forall. intros dt Hin.
  now rewrite (find_none _ _ H dt Hin).
Qed.

(** X16: after a successful [addTagToDocument] the document is among the
    documents of the tag and the tag among the tags of the document, and
    [removeTagFromDocument] with the same arguments succeeds and gives back
    the store as it was. *)
Theorem tag_add_then_remove : forall s documentId tagId added,
  Tags.addTagToDocument documentId tagId s = (Tags.Ok true, added) ->
  In documentId (Tags.getDocumentsByTag tagId added) /\
  (exists tag, In tag (Tags.getDocumentTags documentId added) /\
               Tags.tag_id tag = tagId) /\
  Tags.removeTagFromDocument documentId tagId added = (Tags.Ok true, s).
Proof.
  intros s documentId tagId added. unfold Tags.addTagToDocument.
  destruct (find (fun t => Tags.tag_id t =? tagId) (Tags.tags s)) as [tag|] eqn:Ht;
    [|discriminate].
  destruct (find (Tags.on_document documentId tagId) (Tags.documentTags s)) eqn:Hd;
    [discriminate|].
  intros [= <-]. split; [|split].
  - unfold Tags.getDocumentsByTag. cbn [Tags.documentTags].
    rewrite filter_app, map_app. apply in_or_app. right. cbn.
    rewrite String.eqb_refl. now left.
  - exists tag. apply find_id_eq in Ht as [Hin Hid]. split; [|assumption].
    unfold Tags.getDocumentTags. cbn [Tags.documentTags Tags.tags].
    apply filter_In. split; [assumption|]. apply includes_In.
    rewrite filter_app, map_app. apply in_or_app. right. cbn.
    rewrite String.eqb_refl. left. now rewrite Hid.
  - unfold Tags.removeTagFromDocument. cbn [Tags.documentTags Tags.tags].
    destruct (Z.eqb_spec
                (findIndex (Tags.on_document documentId tagId)
                   (Tags.documentTags s ++ [Tags.mkDocumentTag documentId tagId]))
                (-1)) as [E|E].
    + exfalso.
      pose proof (proj1 (findIndex_none_forall _ _) E
                    (Tags.mkDocumentTag documentId tagId)) as Hf.
      rewrite (proj2 (on_document_eq _ _ _) eq_refl) in Hf.
      assert (true = false); [|discriminate].
      apply Hf. apply in_or_app. right. now left.
    + rewrite (remove_on_document_snoc _ _ _ Hd). now destruct s.
Qed.

Lemma tag_add_then_remove_witness :
  let added := snd (Tags.addTagToDocument "doc2" "t-2" Tags.demo) in
  Tags.addTagToDocument "doc2" "t-2" Tags.demo = (Tags.Ok true, added) /\
  Tags.removeTagFromDocument "doc2" "t-2" added = (Tags.Ok true, Tags.demo).
Proof.
  cbv zeta.
  assert (H : Tags.addTagToDocument "doc2" "t-2" Tags.demo
              = (Tags.Ok true, snd (Tags.addTagToDocument "doc2" "t-2" Tags.demo)))
    by reflexivity.
  split; [exact H|].
  apply (tag_add_then_remove Tags.demo "doc2" "t-2" _ H).
Defined.

Lemma updateTag_cases : forall now id name c s,
  Tags.updateTag now id name c s
  = match find (fun t => Tags.tag_id t =? id) (Tags.tags s) with
    | None => (Tags.Err (Tags.mkTagError Tags.NOT_FOUND "Tag not found"), s)
    | Some current =>
        if negb (name =? Tags.tag_name current)
           && found (find (fun t => toLowerCase (Tags.tag_name t) =? toLowerCase name)
                       (Tags.tags s))
        then
          (Tags.Err (Tags.mkTagError Tags.DUPLICATE_NAME
                       "A tag with this name already exists"), s)
        else
          let updatedTag :=
            Tags.mkTag (Tags.tag_id current) (trim name) c
              (Tags.createdAt current) now in
          (Tags.Ok updatedTag,
           Tags.mkStore
             (mutate_at
                (Z.to_nat (findIndex (fun t => Tags.tag_id t =? id) (Tags.tags s)))
                (fun _ => updatedTag) (Tags.tags s))
             (Tags.documentTags s))
    end.
Proof.
  intros now id name c s. unfold Tags.updateTag.
  destruct (Z.eqb_spec (findIndex (fun t => Tags.tag_id t =? id) (Tags.tags s)) (-1))
    as [E|E].
  - apply findIndex_find_none in E. now rewrite E.
  - destruct (findIndex_nth _ _ E) as (g & Hn & _ & Hf). now rewrite Hn, Hf.
Qed.

Lemma find_replace_at {A} (f : A -> bool) (u : A) : forall l g,
  find f l = Some g -> f u = true ->
  find f (mutate_at (Z.to_nat (findIndex f l)) (fun _ => u) l) = Some u /\
  nth_error l (Z.to_nat (findIndex f l)) = Some g.
Proof.
  induction l as [|x t IH]; simpl; intros g Hg Hu; [discriminate|].
  destruct (f x) eqn:Hx.
  - injection Hg as ->. simpl. now rewrite Hu.
  - destruct (IH g Hg Hu) as [H1 H2].
    pose proof (findIndex_lower f t).
    assert (findIndex f t <> (-1)%Z)
      by (intros E; apply findIndex_find_none in E; congruence).
    destruct (Z.ltb_spec (findIndex f t) 0); [lia|].
    replace (Z.to_nat (findIndex f t + 1)) with (S (Z.to_nat (findIndex f t))) by lia.
    simpl. now rewrite Hx.
Qed.

Lemma updateTag_getTag : forall s now id name c u,
  fst (Tags.updateTag now id name c s) = Tags.Ok u ->
  Tags.getTag id (snd (Tags.updateTag now id name c s)) = Tags.Ok u.
Proof.
  intros s now id name c u. rewrite updateTag_cases.
  destruct (find (fun t => Tags.tag_id t =? id) (Tags.tags s)) as [current|] eqn:Hf;
    [|discriminate].
  destruct (negb (name =? Tags.tag_name current) && _); cbn [fst snd];
    [discriminate|].
  intros [= <-]. pose proof (find_id_eq _ _ _ _ Hf) as [_ Hid].
  destruct (find_replace_at (fun t => Tags.tag_id t =? id)
              (Tags.mkTag (Tags.tag_id current) (trim name) c
                 (Tags.createdAt current) now)
              (Tags.tags s) current Hf) as [Hfind _].
  { cbn. rewrite Hid. apply String.eqb_refl. }
  unfold Tags.getTag. cbn [Tags.tags]. now rewrite Hfind.
Qed.

(** X17: a successful [updateTag] replaces the tag in its slot: the tag
    keeps its id and creation date, takes the trimmed name, the colour given
    and the new update date, [getTag] returns it, and the ids of the stored
    tags and all associations with documents are as before.  An unknown id
    gives NOT_FOUND, and every error leaves the store unchanged. *)
Theorem updateTag_outcome : forall s now id name c,
  let r := Tags.updateTag now id name c s in
  (~ In id (map Tags.tag_id (Tags.tags s)) ->
   r = (Tags.Err (Tags.mkTagError Tags.NOT_FOUND "Tag not found"), s)) /\
  (forall e, fst r = Tags.Err e -> snd r = s) /\
  (forall u, fst r = Tags.Ok u ->
     (exists current,
        find (fun t => Tags.tag_id t =? id) (Tags.tags s) = Some current /\
        u = Tags.mkTag id (trim name) c (Tags.createdAt current) now) /\
     Tags.getTag id (snd r) = Tags.Ok u /\
     map Tags.tag_id (Tags.tags (snd r)) = map Tags.tag_id (Tags.tags s) /\
     Tags.documentTags (snd r) = Tags.documentTags s).
Proof.
  intros s now id name c r. subst r. rewrite updateTag_cases.
  destruct (find (fun t => Tags.tag_id t =? id) (Tags.tags s)) as [current|] eqn:Hf.
  2:{ split; [reflexivity|]. split; [reflexivity|discriminate]. }
  split.
  { intros Hno. exfalso. apply Hno. apply find_id_In. eauto. }
  destruct (negb (name =? Tags.tag_name current) && _); cbn [fst snd].
  - split; [reflexivity|discriminate].
  - split; [discriminate|]. intros u [= <-].
    pose proof (find_id_eq _ _ _ _ Hf) as [_ Hid].
    destruct (find_replace_at (fun t => Tags.tag_id t =? id)
                (Tags.mkTag (Tags.tag_id current) (trim name) c
                   (Tags.createdAt current) now)
                (Tags.tags s) current Hf) as [Hfind Hnth].
    { cbn. rewrite Hid. apply String.eqb_refl. }
    split; [exists current; split; [reflexivity|now rewrite Hid]|].
    split; [unfold Tags.getTag; cbn [Tags.tags]; now rewrite Hfind|].
    split; [|reflexivity]. cbn [Tags.tags].
    now apply (mutate_at_map_at Tags.tag_id _ _ _ current).
Qed.

(** X18: [updateTag] refuses to change the capitalisation of a tag's own
    name: a new name that differs from the current one but equals it when
    both are put in lower case is reported as DUPLICATE_NAME, the tag
    itself being the duplicate found, and the store is unchanged. *)
Theorem updateTag_rejects_case_variant : forall s now id name c current,
  find (fun t => Tags.tag_id t =? id) (Tags.tags s) = Some current ->
  name <> Tags.tag_name current ->
  toLowerCase name = toLowerCase (Tags.tag_name current) ->
  Tags.updateTag now id name c s
  = (Tags.Err (Tags.mkTagError Tags.DUPLICATE_NAME
                 "A tag with this name already exists"), s).
Proof.
  intros s now id name c current Hf Hne Hlow. rewrite updateTag_cases, Hf.
  apply String.eqb_neq in Hne. rewrite Hne. cbn [negb andb].
  destruct (find_exists
              (fun t => toLowerCase (Tags.tag_name t) =? toLowerCase name)
              (Tags.tags s) current) as [b ->]; [| |reflexivity].
  - now apply find_some in Hf.
  - rewrite Hlow. apply String.eqb_refl.
Qed.

Lemma updateTag_rejects_case_variant_witness :
  Tags.getTag "t-1" Tags.demo = Tags.Ok (Tags.mkTag "t-1" "Urgent" (Some "red") 1 1) /\
  Tags.updateTag 5 "t-1" "URGENT" (Some "red") Tags.demo
  = (Tags.Err (Tags.mkTagError Tags.DUPLICATE_NAME
                 "A tag with this name already exists"), Tags.demo).
Proof.
  split; [reflexivity|].
  apply (updateTag_rejects_case_variant Tags.demo 5%Z "t-1" "URGENT" (Some "red")
           (Tags.mkTag "t-1" "Urgent" (Some "red") 1 1));
    [reflexivity|discriminate|reflexivity].
Defined.

Lemma trim_blank : forall s, blank s = true -> trim s = EmptyString.
Proof.
  intros s H. rewrite <- falsy_trim in H. now destruct (trim s).
Qed.

(** X19: [createTag] rejects a blank name with VALIDATION_ERROR, but
    [updateTag] does not validate the name: given a blank name that no
    stored tag name equals in lower case, it succeeds and the tag is stored
    with the empty name. *)
Theorem updateTag_accepts_blank_name : forall s now id name c current,
  blank name = true ->
  find (fun t => Tags.tag_id t =? id) (Tags.tags s) = Some current ->
  (forall t, In t (Tags.tags s) ->
             toLowerCase (Tags.tag_name t) <> toLowerCase name) ->
  (forall uuid now',
     Tags.createTag uuid now now' name c s
     = (Tags.Err (Tags.mkTagError Tags.VALIDATION_ERROR
                    "Tag name cannot be empty"), s)) /\
  fst (Tags.updateTag now id name c s)
  = Tags.Ok (Tags.mkTag id EmptyString c (Tags.createdAt current) now) /\
  Tags.getTag id (snd (Tags.updateTag now id name c s))
  = Tags.Ok (Tags.mkTag id EmptyString c (Tags.createdAt current) now).
Proof.
  intros s now id name c current Hb Hf Hnone. split.
  - intros uuid now'. unfold Tags.createTag. now rewrite falsy_trim, Hb.
  - assert (E : fst (Tags.updateTag now id name c s)
                = Tags.Ok (Tags.mkTag id EmptyString c (Tags.createdAt current) now)).
    { rewrite updateTag_cases, Hf.
      destruct (find (fun t => toLowerCase (Tags.tag_name t) =? toLowerCase name)
                  (Tags.tags s)) as [t|] eqn:Hd.
      - apply find_some in Hd as [Hin Heq]. apply String.eqb_eq in Heq.
        now destruct (Hnone t Hin).
      - cbn [found]. rewrite andb_false_r. cbn [fst].
        pose proof (find_id_eq _ _ _ _ Hf) as [_ Hid].
        now rewrite (trim_blank _ Hb), Hid. }
    split; [exact E|]. now apply updateTag_getTag.
Qed.

Lemma updateTag_accepts_blank_name_witness :
  blank " " = true /\
  fst (Tags.updateTag 5 "t-2" " " None Tags.demo)
  = Tags.Ok (Tags.mkTag "t-2" "" None 2 5).
Proof.
  split; [reflexivity|].
  apply (updateTag_accepts_blank_name Tags.demo 5%Z "t-2" " " None
           (Tags.mkTag "t-2" "Draft" None 2 2)); [reflexivity|reflexivity|].
  intros t [<-|[<-|[]]]; discriminate.
Defined.

Lemma NoDup_replace_at {A B} (k : A -> B) (u : A) : forall i l,
  NoDup (map k l) -> ~ In (k u) (map k l) ->
  NoDup (map k (mutate_at i (fun _ => u) l)).
Proof.
  intros i l. revert i.
  induction l as [|x t IH]; intros [|i] Hn Hu; simpl in *; try assumption.
  - inversion Hn; subst. constructor; tauto.
  - inversion Hn as [|? ? Hx Ht]; subst. constructor; [|apply IH; tauto].
    intros Hin. apply in_map_iff in Hin as (y & Hy & Hin).
    apply mutate_at_In in Hin as [Hin|(z & _ & ->)].
    + apply Hx. rewrite <- Hy. now apply in_map.
    + apply Hu. left. congruence.
Qed.

Lemma tag_names_unique_exec : forall c s,
  Tags.trimmed_input c -> Tags.names_unique s -> Tags.names_unique (Tags.exec c s).
Proof.
  unfold Tags.names_unique. intros c s Ht Hn.
  destruct c; cbn [Tags.exec Tags.trimmed_input] in *.
  - unfold Tags.createTag. destruct (falsy (trim name)); [assumption|].
    destruct (find _ (Tags.tags s)) eqn:Hf; [assumption|].
    cbn [snd Tags.tags]. rewrite map_app. apply NoDup_snoc; [assumption|].
    cbn [map Tags.tag_name]. rewrite Ht. intros Hin.
    apply in_map_iff in Hin as (t & Hlow & Hin).
    pose proof (find_none _ _ Hf t Hin) as Hne. cbn in Hne.
    rewrite Hlow, String.eqb_refl in Hne. discriminate.
  - rewrite updateTag_cases.
    destruct (find (fun t => Tags.tag_id t =? id) (Tags.tags s)) as [current|] eqn:Hf;
      [|assumption].
    destruct (find_replace_at (fun t => Tags.tag_id t =? id) current
                (Tags.tags s) current Hf) as [_ Hnth].
    { now apply find_some in Hf. }
    destruct (String.eqb_spec name (Tags.tag_name current)) as [E|E];
      cbn [negb andb].
    + cbn [snd Tags.tags].
      rewrite (mutate_at_map_at (fun t => toLowerCase (Tags.tag_name t)) _ _ _
                 current Hnth); [assumption|].
      cbn. now rewrite Ht, E.
    + destruct (find (fun t => toLowerCase (Tags.tag_name t) =? toLowerCase name)
                  (Tags.tags s)) eqn:Hd; cbn [found snd Tags.tags]; [assumption|].
      apply NoDup_replace_at; [assumption|]. cbn. rewrite Ht. intros Hin.
      apply in_map_iff in Hin as (t & Hlow & Hin).
      pose proof (find_none _ _ Hd t Hin) as Hne. cbn in Hne.
      rewrite Hlow, String.eqb_refl in Hne. discriminate.
  - unfold Tags.deleteTag.
    destruct (_ =? -1)%Z; cbn [snd Tags.tags]; [assumption|].
    clear Ht. induction (Tags.tags s) as [|x t IH]; simpl in *; [constructor|].
    inversion Hn as [|? ? Hx Hnt]; subst.
    destruct (negb (Tags.tag_id x =? id)); simpl; [|auto].
    constructor; [|auto]. intros Hin. apply Hx.
    apply in_map_iff in Hin as (y & Hy & Hin). apply filter_In in Hin as [Hin _].
    apply in_map_iff. eauto.
  - unfold Tags.addTagToDocument.
    destruct (find _ (Tags.tags s)); [|assumption].
    now destruct (find _ (Tags.documentTags s)).
  - unfold Tags.removeTagFromDocument. now destruct (_ =? -1)%Z.
Qed.

(** X20: when [createTag] and [updateTag] receive trimmed names, no two
    stored tags have the same name, case ignored, in any state the calls
    lead to. *)
Theorem trimmed_input_keeps_tag_names_unique : forall s,
  Tags.reachable_trimmed s -> Tags.names_unique s.
Proof.
  induction 1 as [|s c _ IH Ht].
  - constructor.
  - now apply tag_names_unique_exec.
Qed.

Lemma trimmed_input_keeps_tag_names_unique_witness :
  Tags.reachable_trimmed Tags.demo /\ Tags.names_unique Tags.demo.
Proof.
  assert (H : Tags.reachable_trimmed Tags.demo).
  { unfold Tags.demo. cbn [fold_left].
    repeat (apply Tags.reach_trimmed_call; [|first [reflexivity|exact I]]).
    apply Tags.reach_trimmed_init. }
  split; [exact H|].
  exact (trimmed_input_keeps_tag_names_unique Tags.demo H).
Defined.

(** * Properties of the folder module *)

Lemma parent_eqb_eq : forall a b, Folders.parent_eqb a b = true <-> a = b.
Proof.
  intros [x|] [y|]; simpl; try (split; congruence).
  rewrite String.eqb_eq. split; congruence.
Qed.

(** X21: [deleteFolder] answers NOT_FOUND exactly when no folder has the
    id, and refuses, with INVALID_OPERATION, a folder that is the parent of
    a stored folder; both leave the folders unchanged.  Otherwise it removes
    the folders with that id and no other: the id is then unknown to
    [getFolder], every other id resolves as before, and the children lists
    lose only the removed folder. *)
Theorem deleteFolder_outcome : forall folders folderId,
  let r := Folders.deleteFolder folderId folders in
  (~ In folderId (map Folders.folder_id folders) <->
   r = (Folders.Err (Folders.mkFolderError Folders.NOT_FOUND "Folder not found"),
        folders)) /\
  (In folderId (map Folders.folder_id folders) ->
   (exists f, In f folders /\ Folders.parentId f = Some folderId) ->
   r = (Folders.Err (Folders.mkFolderError Folders.INVALID_OPERATION
                       "Cannot delete folder that contains other folders"),
        folders)) /\
  (In folderId (map Folders.folder_id folders) ->
   (forall f, In f folders -> Folders.parentId f <> Some folderId) ->
   fst r = Folders.Ok true /\
   snd r = filter (fun f => negb (Folders.folder_id f =? folderId)) folders /\
   Folders.getFolder folderId (snd r)
   = Folders.Err (Folders.mkFolderError Folders.NOT_FOUND "Folder not found") /\
   (forall id, id <> folderId ->
      Folders.getFolder id (snd r) = Folders.getFolder id folders) /\
   (forall parent,
      Folders.getFolderChildren parent (snd r)
      = filter (fun f => negb (Folders.folder_id f =? folderId))
          (Folders.getFolderChildren parent folders))).
Proof.
  intros folders folderId r. subst r. unfold Folders.deleteFolder.
  destruct (Z.eqb_spec
              (findIndex (fun f => Folders.folder_id f =? folderId) folders) (-1))
    as [E|E].
  - apply findIndex_find_none in E.
    assert (Hno : ~ In folderId (map Folders.folder_id folders)).
    { intros Hin. apply find_id_In in Hin as [a Ha]. congruence. }
    split; [tauto|]. split; intros Hin; contradiction.
  - assert (Hin : In folderId (map Folders.folder_id folders)).
    { destruct (findIndex_nth _ _ E) as (x & _ & _ & Hf). apply find_id_In. eauto. }
    destruct (existsb _ folders) eqn:Hex.
    + split; [split; [contradiction|discriminate]|].
      split; [reflexivity|].
      intros _ Hnone. apply existsb_exists in Hex as (f & Hf & Hp).
      apply parent_eqb_eq in Hp. now destruct (Hnone f Hf).
    + split; [split; [contradiction|discriminate]|]. split.
      * intros _ (f & Hf & Hp). exfalso.
        assert (Ht : existsb
                       (fun f => Folders.parent_eqb (Folders.parentId f) (Some folderId))
                       folders = true).
        { apply existsb_exists. exists f. split; [assumption|].
          now apply parent_eqb_eq. }
        congruence.
      * intros _ _. cbn [fst snd]. split; [reflexivity|]. split; [reflexivity|].
        unfold Folders.getFolder, Folders.getFolderChildren. split; [|split].
        -- destruct (find _ (filter _ folders)) as [t|] eqn:Hf; [|reflexivity].
           apply find_some in Hf as [Hf Ht]. apply filter_In in Hf as [_ Hf].
           rewrite Ht in Hf. discriminate.
        -- intros id Hne. rewrite find_filter_other; [reflexivity|].
           intros t Ht. apply String.eqb_eq in Ht.
           apply negb_true_iff, String.eqb_neq. congruence.
        -- intros parent. rewrite !filter_filter_and. apply filter_ext.
           intros f. apply andb_comm.
Qed.

Lemma updateFolder_cases : forall now input folders,
  Folders.updateFolder now input folders
  = match find (fun f => Folders.folder_id f =? Folders.uf_id input) folders with
    | None =>
        (Folders.Err (Folders.mkFolderError Folders.NOT_FOUND "Folder not found"),
         folders)
    | Some folder =>
        let duplicate :=
          match Folders.uf_name input with
          | Some name =>
              negb (name =? Folders.folder_name folder)
              && found
                   (find (fun f =>
                            (toLowerCase (Folders.folder_name f) =? toLowerCase name)
                            && Folders.parent_eqb (Folders.parentId f)
                                 (Folders.or_else (Folders.uf_parentId input)
                                    (Folders.parentId folder))
                            && negb (Folders.folder_id f =? Folders.folder_id folder))
                      folders)
          | None => false
          end in
        if duplicate then
          (Folders.Err (Folders.mkFolderError Folders.DUPLICATE_NAME
                          "A folder with this name already exists in this location"),
           folders)
        else
          let store path :=
            let updatedFolder :=
              Folders.mkFolder (Folders.folder_id folder)
                (Folders.or_name (Folders.uf_name input) (Folders.folder_name folder))
                (Folders.or_else (Folders.uf_parentId input) (Folders.parentId folder))
                (Folders.createdAt folder) now path in
            (Folders.Ok updatedFolder,
             mutate_at
               (Z.to_nat (findIndex
                            (fun f => Folders.folder_id f =? Folders.uf_id input)
                            folders))
               (fun _ => updatedFolder) folders) in
          if Folders.changes_parent (Folders.uf_parentId input)
               (Folders.parentId folder) then
            match Folders.uf_parentId input with
            | Folders.given pid =>
                match find (fun f => Folders.folder_id f =? pid) folders with
                | None =>
                    (Folders.Err (Folders.mkFolderError Folders.NOT_FOUND
                                    "Parent folder not found"), folders)
                | Some parentFolder =>
                    store (Folders.path parentFolder
                           ++ [Folders.folder_name parentFolder])
                end
            | _ => store []
            end
          else store (Folders.path folder)
    end.
Proof.
  intros now input folders. unfold Folders.updateFolder.
  destruct (Z.eqb_spec
              (findIndex (fun f => Folders.folder_id f =? Folders.uf_id input)
                 folders) (-1)) as [E|E].
  - apply findIndex_find_none in E. now rewrite E.
  - destruct (findIndex_nth _ _ E) as (g & Hn & _ & Hf). now rewrite Hn, Hf.
Qed.



Lemma falsy_empty : forall s, falsy s = true <-> s = EmptyString.
Proof. intros [|c t]; simpl; split; congruence. Qed.

Lemma walk_up_self_parent : forall folders id f,
  id <> EmptyString ->
  find (fun f' => Folders.folder_id f' =? id) folders = Some f ->
  Folders.parentId f = Some id ->
  forall fuel acc, Folders.walk_up fuel folders id acc = None.
Proof.
  intros folders id f Hid Hf Hp.
  assert (Hfalsy : falsy id = false).
  { destruct (falsy id) eqn:E; [|reflexivity]. apply falsy_empty in E. contradiction. }
  induction fuel as [|fuel IH]; intros acc; simpl; rewrite Hfalsy; [reflexivity|].
  rewrite Hf, Hp. apply IH.
Qed.

(** X23: [updateFolder] accepts a folder as its own parent: on a stored
    folder with a non-empty id, the input [{id, parentId: id}] succeeds.
    From then on the loop of [getFolderPath] and [getBreadcrumbPath] for
    that id finds the folder again at every step and never ends, whatever
    number of iterations it is given. *)
Theorem updateFolder_self_parent_diverges : forall folders now id current,
  id <> EmptyString ->
  find (fun f => Folders.folder_id f =? id) folders = Some current ->
  let r := Folders.updateFolder now
             (Folders.mkUpdateFolderInput id None (Folders.given id)) folders in
  (exists updated, fst r = Folders.Ok updated /\
                   Folders.parentId updated = Some id) /\
  forall fuel,
    Folders.getFolderPath fuel id (snd r) = None /\
    Folders.getBreadcrumbPath fuel (Some id) (snd r) = None.
Proof.
  intros folders now id current Hid Hf r.
  pose proof (find_id_eq _ _ _ _ Hf) as [_ Hcid].
  assert (H : exists updated,
            r = (Folders.Ok updated,
                 mutate_at
                   (Z.to_nat (findIndex (fun f => Folders.folder_id f =? id) folders))
                   (fun _ => updated) folders) /\
            Folders.folder_id updated = id /\
            Folders.parentId updated = Some id).
  { subst r. rewrite updateFolder_cases.
    cbn [Folders.uf_id Folders.uf_name Folders.uf_parentId]. rewrite Hf.
    cbv beta iota zeta.
    destruct (Folders.changes_parent _ _);
      eexists; (split; [reflexivity|]); auto. }
  destruct H as (updated & -> & Huid & Hup). cbn [fst snd].
  split; [eauto|].
  destruct (find_replace_at (fun f => Folders.folder_id f =? id) updated folders
              current Hf) as [Hfind _].
  { rewrite Huid. apply String.eqb_refl. }
  assert (Hfalsy : falsy id = false).
  { destruct (falsy id) eqn:E; [|reflexivity]. apply falsy_empty in E. contradiction. }
  intros fuel. unfold Folders.getFolderPath, Folders.getBreadcrumbPath.
  rewrite Hfalsy, Hfind.
  now rewrite (walk_up_self_parent _ id updated Hid Hfind Hup fuel []).
Qed.

Lemma updateFolder_self_parent_diverges_witness :
  let looped :=
    snd (Folders.updateFolder 9
           (Folders.mkUpdateFolderInput "f-rep" None (Folders.given "f-rep"))
           Folders.demo) in
  "f-rep" <> EmptyString /\
  Folders.getBreadcrumbPath 3 (Some "f-rep") Folders.demo
  = Some (Folders.Ok ["Root"; "Reports"]) /\
  forall fuel, Folders.getBreadcrumbPath fuel (Some "f-rep") looped = None.
Proof.
  cbv zeta. split; [discriminate|]. split; [reflexivity|].
  intros fuel.
  apply (updateFolder_self_parent_diverges Folders.demo 9%Z "f-rep"
           (Folders.mkFolder "f-rep" "Reports" (Some "f-root") 2 2 ["Root"]));
    [discriminate|reflexivity].
Defined.

(** ** Paths without updates *)

Lemma find_app_none {A} (f : A -> bool) (l l' : list A) :
  find f l = None -> find f (l ++ l') = find f l'.
Proof.
  induction l as [|y t IH]; simpl; intros H; [reflexivity|].
  destruct (f y); [discriminate|auto].
Qed.

Lemma find_app_some {A} (f : A -> bool) (l l' : list A) x :
  find f l = Some x -> find f (l ++ l') = Some x.
Proof.
  induction l as [|y t IH]; simpl; intros H; [discriminate|].
  destruct (f y); auto.
Qed.

Lemma paths_ok_filter : forall folderId folders,
  (forall f, In f folders -> Folders.parentId f <> Some folderId) ->
  Folders.paths_ok folders ->
  Folders.paths_ok (filter (fun f => negb (Folders.folder_id f =? folderId)) folders).
Proof.
  intros folderId folders Hno H. induction H as [|before f Hb IH Hf].
  - constructor.
  - rewrite filter_app. cbn [filter].
    assert (IH' : Folders.paths_ok
                    (filter (fun f => negb (Folders.folder_id f =? folderId)) before)).
    { apply IH. intros g Hg. apply Hno. apply in_or_app. now left. }
    destruct (negb (Folders.folder_id f =? folderId));
      [|now rewrite app_nil_r].
    constructor; [assumption|].
    unfold Folders.parent_ok in *.
    destruct (Folders.parentId f) as [p|] eqn:Hp; [|assumption].
    destruct Hf as (Hne & q & Hq & Hpath). split; [assumption|].
    exists q. split; [|assumption].
    rewrite find_filter_other; [assumption|].
    intros t Ht. apply String.eqb_eq in Ht.
    apply negb_true_iff, String.eqb_neq. intros E.
    apply (Hno f); [apply in_or_app; right; now left|]. congruence.
Qed.

Lemma createFolder_paths_ok : forall uuid now now' input folders,
  Folders.paths_ok folders ->
  Folders.paths_ok (snd (Folders.createFolder uuid now now' input folders)).
Proof.
  intros uuid now now' input folders H. unfold Folders.createFolder.
  destruct (falsy (trim (Folders.cf_name input))); [assumption|].
  destruct (find _ folders); [assumption|]. cbv zeta.
  destruct (Folders.or_null (Folders.cf_parentId input)) as [pid|] eqn:Hp.
  - destruct (find (fun f => Folders.folder_id f =? pid) folders) as [q|] eqn:Hq;
      [|assumption].
    cbn [snd]. constructor; [assumption|].
    unfold Folders.parent_ok. cbn [Folders.parentId Folders.path].
    split; [|eauto].
    unfold Folders.or_null in Hp.
    destruct (Folders.cf_parentId input) as [| |id]; try discriminate.
    destruct (falsy id) eqn:Hf; [discriminate|]. injection Hp as <-.
    intros ->. discriminate.
  - cbn [snd]. constructor; [assumption|].
    unfold Folders.parent_ok. reflexivity.
Qed.

Lemma paths_ok_exec : forall c folders,
  Folders.paths_ok folders -> Folders.paths_ok (Folders.exec c folders).
Proof.
  intros c folders H. destruct c; cbn [Folders.exec].
  - now apply createFolder_paths_ok.
  - unfold Folders.deleteFolder. destruct (_ =? -1)%Z; [assumption|].
    destruct (existsb _ folders) eqn:Hex; [assumption|]. cbn [snd].
    apply paths_ok_filter; [|assumption].
    intros f Hf Hp.
    assert (Ht : existsb
                   (fun f => Folders.parent_eqb (Folders.parentId f) (Some folderId))
                   folders = true).
    { apply existsb_exists. exists f. split; [assumption|]. now apply parent_eqb_eq. }
    congruence.
  - unfold Folders.initializeFolders.
    destruct (length folders =? 0)%nat; [|assumption].
    now apply createFolder_paths_ok.
Qed.

Lemma walk_up_paths_ok : forall before,
  Folders.paths_ok before ->
  forall ext id f acc fuel,
    find (fun f' => Folders.folder_id f' =? id) before = Some f ->
    id <> EmptyString ->
    length before <= fuel ->
    exists chain,
      Folders.walk_up fuel (before ++ ext) id acc = Some (chain ++ acc) /\
      map Folders.folder_name chain = Folders.path f ++ [Folders.folder_name f].
Proof.
  induction 1 as [|before g Hb IH Hg]; intros ext id f acc fuel Hf Hid Hfuel;
    [discriminate|].
  rewrite <- app_assoc.
  destruct (find (fun f' => Folders.folder_id f' =? id) before) as [f0|] eqn:Hin.
  - rewrite (find_app_some _ _ _ _ Hin) in Hf. injection Hf as ->.
    apply IH; [assumption|assumption|]. rewrite length_app in Hfuel. lia.
  - rewrite (find_app_none _ _ _ Hin) in Hf. cbn in Hf.
    destruct (Folders.folder_id g =? id) eqn:Hgid; [|discriminate].
    injection Hf as ->.
    rewrite length_app in Hfuel. cbn in Hfuel.
    destruct fuel as [|fuel]; [lia|].
    assert (Hfalsy : falsy id = false).
    { destruct (falsy id) eqn:E; [|reflexivity]. apply falsy_empty in E.
      contradiction. }
    cbn [Folders.walk_up]. rewrite Hfalsy, (find_app_none _ _ _ Hin).
    cbn [app find]. rewrite Hgid.
    unfold Folders.parent_ok in Hg.
    destruct (Folders.parentId f) as [p|].
    + destruct Hg as (Hp & q & Hq & Hpath).
      destruct (IH ([f] ++ ext) p q (f :: acc) fuel Hq Hp) as (chain & Hw & Hn);
        [lia|].
      exists (chain ++ [f]). split.
      * cbn [app] in Hw. rewrite Hw, <- app_assoc. reflexivity.
      * rewrite map_app, Hn, Hpath. reflexivity.
    + exists [f]. split; [now destruct fuel|]. rewrite Hg. reflexivity.
Qed.

(** X24: as long as folders are only created and deleted, the stored path
    of a folder agrees with the tree: for a stored folder with a non-empty
    id the loop of [getFolderPath] ends within as many iterations as there
    are folders, and the names on the path it finds, which
    [getBreadcrumbPath] returns, are the stored path of the folder followed
    by its own name. *)
Theorem breadcrumb_is_stored_path : forall folders id f fuel,
  Folders.reachable_without_update folders ->
  find (fun f' => Folders.folder_id f' =? id) folders = Some f ->
  id <> EmptyString ->
  length folders <= fuel ->
  Folders.getBreadcrumbPath fuel (Some id) folders
  = Some (Folders.Ok (Folders.path f ++ [Folders.folder_name f])) /\
  exists chain,
    Folders.getFolderPath fuel id folders = Some (Folders.Ok chain) /\
    map Folders.folder_name chain = Folders.path f ++ [Folders.folder_name f].
Proof.
  intros folders id f fuel Hr Hf Hid Hfuel.
  assert (Hok : Folders.paths_ok folders).
  { clear Hf Hfuel. induction Hr as [|s c _ IH];
      [constructor|now apply paths_ok_exec]. }
  destruct (walk_up_paths_ok folders Hok [] id f [] fuel Hf Hid Hfuel)
    as (chain & Hw & Hn).
  rewrite !app_nil_r in Hw.
  assert (Hfalsy : falsy id = false).
  { destruct (falsy id) eqn:E; [|reflexivity]. apply falsy_empty in E.
    contradiction. }
  unfold Folders.getBreadcrumbPath, Folders.getFolderPath.
  rewrite Hfalsy, Hf, Hw. cbn [option_map]. rewrite Hn. eauto.
Qed.

Lemma reachable_folders_demo : Folders.reachable_without_update Folders.demo.
Proof. unfold Folders.demo. cbn [fold_left]. repeat constructor. Qed.

Lemma breadcrumb_is_stored_path_witness :
  Folders.reachable_without_update Folders.demo /\
  Folders.getBreadcrumbPath 3 (Some "f-24") Folders.demo
  = Some (Folders.Ok ["Root"; "Reports"; "2024"]).
Proof.
  split; [exact reachable_folders_demo|].
  apply (breadcrumb_is_stored_path Folders.demo "f-24"
           (Folders.mkFolder "f-24" "2024" (Some "f-rep") 3 3 ["Root"; "Reports"])
           3 reachable_folders_demo);
    [reflexivity|discriminate|].
  apply le_n.
Defined.

(** * Properties of the file validation module *)

Lemma lastIndexOf_from_absent : forall c s i last,
  Files.contains c s = false -> Files.lastIndexOf_from i s c last = last.
Proof.
  intros c. induction s as [|x t IH]; simpl; intros i last H; [reflexivity|].
  apply orb_false_iff in H as [Hx Ht]. rewrite Hx. now apply IH.
Qed.

Lemma lastIndexOf_from_last : forall c a b i last,
  Files.contains c b = false ->
  Files.lastIndexOf_from i (a ++ String c b) c last
  = (i + Z.of_nat (String.length a))%Z.
Proof.
  intros c. induction a as [|x t IH]; simpl String.length; intros b i last H.
  - cbn. rewrite Ascii.eqb_refl, lastIndexOf_from_absent by assumption. lia.
  - cbn [append Files.lastIndexOf_from]. rewrite IH by assumption. lia.
Qed.

Lemma drop_all : forall s n, String.length s <= n -> Files.drop n s = EmptyString.
Proof.
  induction s as [|x t IH]; intros [|n]; simpl; intros H; try reflexivity; [lia|].
  apply IH. lia.
Qed.

Lemma drop_prefix : forall a c b,
  Files.drop (S (String.length a)) (a ++ String c b) = b.
Proof. induction a as [|x t IH]; simpl; intros c b; [reflexivity|apply IH]. Qed.

Lemma length_append : forall a b,
  String.length (a ++ b) = String.length a + String.length b.
Proof. induction a as [|x t IH]; simpl; intros b; [reflexivity|now rewrite IH]. Qed.

Lemma slice_beyond : forall start s,
  (Z.of_nat (String.length s) <= start)%Z -> Files.slice start s = EmptyString.
Proof.
  intros start s H. unfold Files.slice.
  destruct (Z.ltb_spec start 0); [lia|].
  apply drop_all. lia.
Qed.

(** X25: for a file name shorter than 2^32 characters, [getFileExtension]
    is the text after the last dot, in lower case, when the name has a dot
    that is not its first character; it is the empty string when the name
    has no dot, and also when its only dot is the first character. *)
Theorem getFileExtension_cases : forall filename,
  (Z.of_nat (String.length filename) < 2 ^ 32)%Z ->
  (Files.contains "."%char filename = false ->
   Files.getFileExtension filename = EmptyString) /\
  (forall rest,
     filename = String "."%char rest -> Files.contains "."%char rest = false ->
     Files.getFileExtension filename = EmptyString) /\
  (forall base rest,
     filename = (base ++ String "."%char rest)%string -> base <> EmptyString ->
     Files.contains "."%char rest = false ->
     Files.getFileExtension filename = toLowerCase rest).
Proof.
  intros filename Hlen. unfold Files.getFileExtension, Files.lastIndexOf.
  split; [|split].
  - intros H. rewrite lastIndexOf_from_absent by assumption.
    rewrite slice_beyond; [reflexivity|].
    change (Files.toUint32 (-1 - 1)) with 4294967294%Z. lia.
  - intros rest -> H.
    pose proof (lastIndexOf_from_last "."%char EmptyString rest 0 (-1) H) as E.
    cbn [append String.length] in E. rewrite E.
    rewrite slice_beyond; [reflexivity|].
    change (Files.toUint32 (0 + Z.of_nat 0 - 1)) with 4294967295%Z. lia.
  - intros base rest -> Hbase H.
    rewrite (lastIndexOf_from_last "."%char base rest 0 (-1) H).
    rewrite length_append in Hlen. cbn [String.length] in Hlen.
    assert (Hpos : 0 < String.length base) by (destruct base; [congruence|simpl; lia]).
    unfold Files.toUint32. rewrite Z.mod_small by lia.
    unfold Files.slice. rewrite length_append. cbn [String.length].
    destruct (Z.ltb_spec (0 + Z.of_nat (String.length base) - 1 + 2) 0); [lia|].
    rewrite Z.min_l by lia.
    replace (Z.to_nat (0 + Z.of_nat (String.length base) - 1 + 2))
      with (S (String.length base)) by lia.
    now rewrite drop_prefix.
Qed.

Lemma getFileExtension_cases_witness :
  (Z.of_nat (String.length "Report.final.PDF") < 2 ^ 32)%Z /\
  Files.getFileExtension "Report.final.PDF" = "pdf" /\
  Files.getFileExtension ".gitignore" = "" /\
  Files.getFileExtension "README" = "".
Proof.
  assert (H : (Z.of_nat (String.length "Report.final.PDF") < 2 ^ 32)%Z)
    by (vm_compute; reflexivity).
  split; [exact H|]. split; [|split; reflexivity].
  destruct (getFileExtension_cases "Report.final.PDF" H) as (_ & _ & H3).
  apply (H3 "Report.final" "PDF"); [reflexivity|discriminate|reflexivity].
Defined.

Lemma dot_eqb : forall a e, (String "."%char a =? String "."%char e) = (a =? e).
Proof. intros a e. cbn [String.eqb]. now rewrite Ascii.eqb_refl. Qed.

Lemma supported_find : forall m e,
  match find (fun t => (Files.mimeType t =? m)
                       || (Files.extension t =? ("." ++ e)%string))
          Files.SUPPORTED_FILE_TYPES with
  | Some t =>
      (In m Files.supported_mime_types \/ In e Files.supported_extensions) /\
      Files.maxSize t = 10485760%Z /\ In t Files.SUPPORTED_FILE_TYPES
  | None => ~ (In m Files.supported_mime_types \/ In e Files.supported_extensions)
  end.
Proof.
  intros m e. unfold Files.SUPPORTED_FILE_TYPES.
  cbn [find Files.mimeType Files.extension append]. rewrite !dot_eqb.
  unfold Files.supported_mime_types, Files.supported_extensions.
  repeat (match goal with
          | |- context [String.eqb ?a ?b] => destruct (String.eqb_spec a b)
          end; cbn [orb]).
  all: cbn [Files.maxSize In]; try (split; [|split]; auto 12; reflexivity).
  intuition congruence.
Qed.

(** X26: [validateFile] accepts a file exactly when its MIME type is one
    of the five supported ones, or its extension, case ignored, is pdf, doc,
    docx, xls or xlsx, and its size is at most 10 MiB; an empty file of a
    supported kind is accepted.  A file of no supported kind is reported as
    INVALID_FILE_TYPE, a supported one above the limit as FILE_TOO_LARGE,
    and no file at all as EMPTY_FILE. *)
Theorem validateFile_accepts_iff : forall formatFileSize f,
  let r := Files.validateFile formatFileSize (Some f) in
  let supported :=
    In (Files.mime f) Files.supported_mime_types \/
    In (Files.getFileExtension (Files.name f)) Files.supported_extensions in
  (Files.isValid r = true <-> supported /\ (Files.size f <= 10485760)%Z) /\
  (Files.isValid r = true ->
   Files.error r = None /\
   exists t, Files.fileType r = Some t /\ In t Files.SUPPORTED_FILE_TYPES) /\
  (~ supported ->
   option_map Files.type (Files.error r) = Some Files.INVALID_FILE_TYPE) /\
  (supported -> (10485760 < Files.size f)%Z ->
   option_map Files.type (Files.error r) = Some Files.FILE_TOO_LARGE) /\
  Files.isValid (Files.validateFile formatFileSize None) = false /\
  option_map Files.type (Files.error (Files.validateFile formatFileSize None))
  = Some Files.EMPTY_FILE.
Proof.
  intros formatFileSize f r supported. subst r supported.
  unfold Files.validateFile.
  pose proof (supported_find (Files.mime f)
                (Files.getFileExtension (Files.name f))) as H.
  destruct (find _ Files.SUPPORTED_FILE_TYPES) as [t|].
  - destruct H as (Hs & Hmax & Hin). rewrite Hmax.
    destruct (Z.gtb_spec (Files.size f) 10485760);
      cbn [Files.isValid Files.error Files.fileType option_map Files.type].
    + split; [split; [discriminate|intros [_ ?]; lia]|].
      split; [discriminate|]. split; [tauto|]. repeat split.
    + split; [split; [intros _; split; [assumption|lia]|reflexivity]|].
      split; [eauto|]. split; [tauto|]. split; [lia|]. repeat split.
  - cbn [Files.isValid Files.error Files.fileType option_map Files.type].
    split; [split; [discriminate|tauto]|].
    split; [discriminate|]. repeat split. tauto.
Qed.

Lemma validateFile_accepts_iff_witness :
  Files.isValid
    (Files.validateFile (fun _ => "10 MB")
       (Some (Files.mkFile "Report.PDF" "" 0))) = true /\
  Files.isValid
    (Files.validateFile (fun _ => "10 MB")
       (Some (Files.mkFile "notes.txt" "text/plain" 12))) = false.
Proof.
  destruct (validateFile_accepts_iff (fun _ => "10 MB")
              (Files.mkFile "Report.PDF" "" 0)) as (H & _).
  split; [|reflexivity].
  apply H. split; [right; left; reflexivity|]. cbn. lia.
Defined.

(** * A duplicate the tag module lets through *)

(** X27: [createTag] compares the name as given but stores it trimmed.  A
    name that is a stored name with white space around it, and that no
    stored name equals in lower case, passes the duplicate check, and the
    store then holds two tags with the same name. *)
Theorem createTag_untrimmed_duplicate : forall s uuid now now' name c t,
  In t (Tags.tags s) ->
  Tags.tag_name t = trim name ->
  blank name = false ->
  (forall t', In t' (Tags.tags s) ->
              toLowerCase (Tags.tag_name t') <> toLowerCase name) ->
  exists created,
    Tags.createTag uuid now now' name c s
    = (Tags.Ok created, Tags.mkStore (Tags.tags s ++ [created]) (Tags.documentTags s)) /\
    Tags.tag_name created = Tags.tag_name t /\
    ~ NoDup (map Tags.tag_name (Tags.tags (snd (Tags.createTag uuid now now' name c s)))).
Proof.
  intros s uuid now now' name c t Hin Hname Hb Hnone.
  assert (E : Tags.createTag uuid now now' name c s
              = (Tags.Ok (Tags.mkTag uuid (trim name) c now now'),
                 Tags.mkStore
                   (Tags.tags s ++ [Tags.mkTag uuid (trim name) c now now'])
                   (Tags.documentTags s))).
  { unfold Tags.createTag. rewrite falsy_trim, Hb.
    destruct (find _ (Tags.tags s)) as [t'|] eqn:Hf; [|reflexivity].
    apply find_some in Hf as [Hin' Heq]. apply String.eqb_eq in Heq.
    now destruct (Hnone t' Hin'). }
  exists (Tags.mkTag uuid (trim name) c now now').
  split; [exact E|]. split; [now rewrite Hname|].
  rewrite E. cbn [snd Tags.tags]. rewrite map_app. cbn [map Tags.tag_name].
  intros Hnd. apply NoDup_remove_2 in Hnd. apply Hnd.
  rewrite app_nil_r, <- Hname. now apply in_map.
Qed.

Lemma createTag_untrimmed_duplicate_witness :
  exists created,
    Tags.createTag "t-3" 7 7 " Urgent" None Tags.demo
    = (Tags.Ok created,
       Tags.mkStore (Tags.tags Tags.demo ++ [created]) (Tags.documentTags Tags.demo)) /\
    Tags.tag_name created = "Urgent".
Proof.
  destruct (createTag_untrimmed_duplicate Tags.demo "t-3" 7%Z 7%Z " Urgent" None
              (Tags.mkTag "t-1" "Urgent" (Some "red") 1 1))
    as (created & H1 & H2 & _).
  - left. reflexivity.
  - reflexivity.
  - reflexivity.
  - intros t' [<-|[<-|[]]]; discriminate.
  - exists created. split; [exact H1|exact H2].
Defined.
